(** * Memory allocator simulator: a shallow embedding of
      [src/demos/memory-allocator/allocator.js] (class [MemoryAllocator])

    Modelling conventions.
    - JavaScript numbers that hold byte counts, offsets and allocation ids are
      integers in every run of the program; they are modelled as [Z]
      (exact as long as they stay below 2^53).  Array indices are [nat].
    - The value [null] of [block.id] is [None]; the argument of [free] is a
      JavaScript value compared with [===] against [block.id], modelled as
      [option Z] as well.
    - Objects stored in [this.blocks] and [this.allocations] are mutated in
      place by the program; here the arrays are lists and a mutation of the
      element at index [i] is an update of the list at [i].
    - The two loops whose termination is not structural (the coalescing loop
      and the circular next-fit scan) take a [fuel] argument, one unit per
      loop iteration; [None] means that the fuel ran out.
    - Reading a property of [undefined] throws a [TypeError]; a method that can
      do so returns a [Completion].
    - The quotient computed by [getStats] is a rational number ([Q]); the
      rounding of IEEE doubles is not modelled. *)

From Stdlib Require Import ZArith QArith Lia.
From stdpp Require Import base list.

Local Open Scope Z_scope.

(** ** Data model *)

Module Block.
Record t : Type := mk
  { start : Z;
    size : Z;
    allocated : bool;
    id : option Z }.
End Block.

Module Allocation.
Record t : Type := mk
  { id : Z;
    size : Z;
    freed : bool;
    timestamp : Z }.
End Allocation.

(** The strings ['first-fit'], ['best-fit'], ['worst-fit'] and ['next-fit'];
    [OtherStrategy] stands for any other value handed to [setStrategy], for
    which the [switch] of [allocate] has no case. *)
Inductive Strategy : Type :=
  | FirstFit
  | BestFit
  | WorstFit
  | NextFit
  | OtherStrategy.

Record MemoryAllocator : Type := mkAllocator
  { totalSize : Z;
    blocks : list Block.t;
    allocations : list Allocation.t;
    nextId : Z;
    strategy : Strategy;
    lastSearchIndex : nat }.

(** Result of [Array.prototype.findIndex] and of the four searches:
    [NotFound] is the number [-1]. *)
Inductive Index : Type :=
  | Found (i : nat)
  | NotFound.

(** How a method call completes: with a value, or by throwing the
    [TypeError] of a property read on [undefined]. *)
Inductive Completion (A : Type) : Type :=
  | Normal (a : A)
  | TypeError.
Arguments Normal {A} a.
Arguments TypeError {A}.

(** Value returned by [allocate]: the new allocation id, or [null]. *)
Inductive AllocResult : Type :=
  | AllocationId (n : Z)
  | Null.

Module Stats.
Record t : Type := mk
  { totalSize : Z;
    allocated : Z;
    free : Z;
    fragmentation : Q;
    allocations : nat;
    freeBlocks : nat }.
End Stats.

(** ** Field updates *)

Definition set_blocks (bs : list Block.t) (this : MemoryAllocator) : MemoryAllocator :=
  {| totalSize := totalSize this; blocks := bs; allocations := allocations this;
     nextId := nextId this; strategy := strategy this;
     lastSearchIndex := lastSearchIndex this |}.

Definition set_nextId (n : Z) (this : MemoryAllocator) : MemoryAllocator :=
  {| totalSize := totalSize this; blocks := blocks this; allocations := allocations this;
     nextId := n; strategy := strategy this;
     lastSearchIndex := lastSearchIndex this |}.

(** [block.allocated = true; block.id = allocationId] *)
Definition mark_allocated (allocationId : Z) (block : Block.t) : Block.t :=
  {| Block.start := Block.start block; Block.size := Block.size block;
     Block.allocated := true; Block.id := Some allocationId |}.

(** [block.allocated = false; block.id = null] *)
Definition mark_free (block : Block.t) : Block.t :=
  {| Block.start := Block.start block; Block.size := Block.size block;
     Block.allocated := false; Block.id := None |}.

(** [block.start += size; block.size -= size] *)
Definition shrink (size : Z) (block : Block.t) : Block.t :=
  {| Block.start := Block.start block + size; Block.size := Block.size block - size;
     Block.allocated := Block.allocated block; Block.id := Block.id block |}.

(** [current.size += next.size] *)
Definition grow (extra : Z) (current : Block.t) : Block.t :=
  {| Block.start := Block.start current; Block.size := Block.size current + extra;
     Block.allocated := Block.allocated current; Block.id := Block.id current |}.

(** [block.start = currentStart] *)
Definition move_to (currentStart : Z) (block : Block.t) : Block.t :=
  {| Block.start := currentStart; Block.size := Block.size block;
     Block.allocated := Block.allocated block; Block.id := Block.id block |}.

(** [allocation.freed = true] *)
Definition set_freed (a : Allocation.t) : Allocation.t :=
  {| Allocation.id := Allocation.id a; Allocation.size := Allocation.size a;
     Allocation.freed := true; Allocation.timestamp := Allocation.timestamp a |}.

(** ** Array helpers *)

(** [arr.findIndex(p)] *)
Fixpoint findIndex_from {A : Type} (p : A -> bool) (l : list A) (i : nat) : Index :=
  match l with
  | [] => NotFound
  | x :: l' => if p x then Found i else findIndex_from p l' (S i)
  end.

Definition findIndex {A : Type} (p : A -> bool) (l : list A) : Index :=
  findIndex_from p l 0%nat.

(** [arr.splice(i, 0, x)]: insert [x] before position [i]. *)
Definition splice_in {A : Type} (i : nat) (x : A) (l : list A) : list A :=
  take i l ++ x :: drop i l.

(** [arr.splice(i, 1)]: remove the element at position [i]. *)
Definition splice_out {A : Type} (i : nat) (l : list A) : list A :=
  delete i l.

(** [a === b] on values that are [null] or an integer. *)
Definition strict_eq (a b : option Z) : bool :=
  match a, b with
  | None, None => true
  | Some x, Some y => x =? y
  | _, _ => false
  end.

(** ** The class [MemoryAllocator] *)

Definition constructor (totalSize : Z) : MemoryAllocator :=
  {| totalSize := totalSize;
     blocks := [ {| Block.start := 0; Block.size := totalSize;
                    Block.allocated := false; Block.id := None |} ];
     allocations := [];
     nextId := 1;
     strategy := FirstFit;
     lastSearchIndex := 0%nat |}.

Definition setStrategy (st : Strategy) (this : MemoryAllocator) : MemoryAllocator :=
  {| totalSize := totalSize this; blocks := blocks this; allocations := allocations this;
     nextId := nextId this; strategy := st; lastSearchIndex := 0%nat |}.

(** [!block.allocated && block.size >= size], the test shared by the four
    searches. *)
Definition fits (size : Z) (block : Block.t) : bool :=
  negb (Block.allocated block) && (Block.size block >=? size).

Definition firstFit (this : MemoryAllocator) (size : Z) : Index :=
  findIndex (fits size) (blocks this).

(** [bestSize] starts at [Infinity], which is [None] here. *)
Definition below (x : Z) (bound : option Z) : bool :=
  match bound with
  | None => true
  | Some y => x <? y
  end.

(** The [for] loop of [bestFit], from index [i] on; [rest] holds
    [blocks[i..]]. *)
Fixpoint bestFit_loop (size : Z) (rest : list Block.t) (i : nat)
    (bestIndex : Index) (bestSize : option Z) : Index :=
  match rest with
  | [] => bestIndex
  | block :: rest' =>
      if fits size block && below (Block.size block) bestSize
      then bestFit_loop size rest' (S i) (Found i) (Some (Block.size block))
      else bestFit_loop size rest' (S i) bestIndex bestSize
  end.

Definition bestFit (this : MemoryAllocator) (size : Z) : Index :=
  bestFit_loop size (blocks this) 0%nat NotFound None.

(** The [for] loop of [worstFit]; [worstSize] starts at [-1]. *)
Fixpoint worstFit_loop (size : Z) (rest : list Block.t) (i : nat)
    (worstIndex : Index) (worstSize : Z) : Index :=
  match rest with
  | [] => worstIndex
  | block :: rest' =>
      if fits size block && (Block.size block >? worstSize)
      then worstFit_loop size rest' (S i) (Found i) (Block.size block)
      else worstFit_loop size rest' (S i) worstIndex worstSize
  end.

Definition worstFit (this : MemoryAllocator) (size : Z) : Index :=
  worstFit_loop size (blocks this) 0%nat NotFound (-1).

(** The [do ... while] loop of [nextFit].  One unit of fuel is one execution
    of the loop body.  [blocks[currentIndex]] is [undefined] when the index is
    out of range, and the read of [block.allocated] then throws. *)
Fixpoint nextFit_loop (fuel : nat) (bs : list Block.t) (size : Z)
    (startIndex currentIndex : nat) : option (Completion Index) :=
  match fuel with
  | O => None
  | S fuel' =>
      match bs !! currentIndex with
      | None => Some TypeError
      | Some block =>
          if fits size block then Some (Normal (Found currentIndex))
          else
            let currentIndex' := ((currentIndex + 1) mod length bs)%nat in
            if (currentIndex' =? startIndex)%nat then Some (Normal NotFound)
            else nextFit_loop fuel' bs size startIndex currentIndex'
      end
  end.

Definition nextFit (fuel : nat) (this : MemoryAllocator) (size : Z)
    : option (Completion Index) :=
  nextFit_loop fuel (blocks this) size (lastSearchIndex this) (lastSearchIndex this).

(** The [switch] at the head of [allocate]; [blockIndex] stays [-1] when no
    case matches. *)
Definition search (fuel : nat) (this : MemoryAllocator) (size : Z)
    : option (Completion Index) :=
  match strategy this with
  | FirstFit => Some (Normal (firstFit this size))
  | BestFit => Some (Normal (bestFit this size))
  | WorstFit => Some (Normal (worstFit this size))
  | NextFit => nextFit fuel this size
  | OtherStrategy => Some (Normal NotFound)
  end.

(** [allocate(size)]; [now] is the value of [Date.now()] at the call. *)
Definition allocate (fuel : nat) (size now : Z) (this : MemoryAllocator)
    : option (MemoryAllocator * Completion AllocResult) :=
  r ← search fuel this size;
  match r with
  | TypeError => Some (this, TypeError)
  | Normal NotFound => Some (this, Normal Null)
  | Normal (Found blockIndex) =>
      let allocationId := nextId this in
      match blocks this !! blockIndex with
      | None => Some (set_nextId (allocationId + 1) this, TypeError)
      | Some block =>
          let blocks' :=
            if Block.size block =? size
            then <[blockIndex := mark_allocated allocationId block]> (blocks this)
            else
              let newBlock :=
                {| Block.start := Block.start block; Block.size := size;
                   Block.allocated := true; Block.id := Some allocationId |} in
              splice_in blockIndex newBlock
                (<[blockIndex := shrink size block]> (blocks this)) in
          Some ({| totalSize := totalSize this;
                   blocks := blocks';
                   allocations :=
                     allocations this ++
                       [ {| Allocation.id := allocationId; Allocation.size := size;
                            Allocation.freed := false; Allocation.timestamp := now |} ];
                   nextId := allocationId + 1;
                   strategy := strategy this;
                   lastSearchIndex := blockIndex |},
                Normal (AllocationId allocationId))
      end
  end.

(** The [for] loop of [mergeAdjacentFreeBlocks], at loop variable [i].  One
    unit of fuel is one evaluation of the loop condition.  After a merge the
    code decrements [i] and the loop header increments it again, so the next
    iteration runs at the same [i]. *)
Fixpoint merge_loop (fuel : nat) (i : nat) (bs : list Block.t) : option (list Block.t) :=
  match fuel with
  | O => None
  | S fuel' =>
      if (i + 1 <? length bs)%nat then
        match bs !! i, bs !! (i + 1)%nat with
        | Some current, Some next =>
            if negb (Block.allocated current) && negb (Block.allocated next)
            then merge_loop fuel' i
                   (splice_out (i + 1) (<[i := grow (Block.size next) current]> bs))
            else merge_loop fuel' (i + 1) bs
        | _, _ => None
        end
      else Some bs
  end.

Definition mergeAdjacentFreeBlocks (fuel : nat) (this : MemoryAllocator)
    : option MemoryAllocator :=
  bs ← merge_loop fuel 0 (blocks this);
  Some (set_blocks bs this).

(** [free(allocationId)].  [findIndex] returns an index inside the array, so
    [this.blocks[blockIndex]] is a block; the allocation record, when there is
    one, is the first with that id. *)
Definition free (fuel : nat) (allocationId : option Z) (this : MemoryAllocator)
    : option (MemoryAllocator * bool) :=
  match findIndex (fun b => strict_eq (Block.id b) allocationId) (blocks this) with
  | NotFound => Some (this, false)
  | Found blockIndex =>
      let blocks' := alter mark_free blockIndex (blocks this) in
      let allocations' :=
        match findIndex (fun a => strict_eq (Some (Allocation.id a)) allocationId)
                (allocations this) with
        | Found k => alter set_freed k (allocations this)
        | NotFound => allocations this
        end in
      this' ← mergeAdjacentFreeBlocks fuel
        {| totalSize := totalSize this; blocks := blocks';
           allocations := allocations'; nextId := nextId this;
           strategy := strategy this; lastSearchIndex := lastSearchIndex this |};
      Some (this', true)
  end.

(** The comparator handed to [sort] by [defragment]. *)
Definition compare_blocks (a b : Block.t) : Z :=
  if Block.allocated a && negb (Block.allocated b) then -1
  else if negb (Block.allocated a) && Block.allocated b then 1
  else Block.start a - Block.start b.

(** [Array.prototype.sort] is a stable sort; for a comparator that is a
    total preorder its result is the one of a stable insertion sort. *)
Fixpoint sort_insert {A : Type} (cmp : A -> A -> Z) (x : A) (l : list A) : list A :=
  match l with
  | [] => [x]
  | y :: l' => if cmp x y <=? 0 then x :: y :: l' else y :: sort_insert cmp x l'
  end.

Definition sort {A : Type} (cmp : A -> A -> Z) (l : list A) : list A :=
  foldr (sort_insert cmp) [] l.

(** The [for ... of] loop of [defragment] that recomputes the starts. *)
Fixpoint relayout (currentStart : Z) (bs : list Block.t) : list Block.t :=
  match bs with
  | [] => []
  | block :: rest =>
      move_to currentStart block :: relayout (currentStart + Block.size block) rest
  end.

Definition defragment (fuel : nat) (this : MemoryAllocator) : option MemoryAllocator :=
  mergeAdjacentFreeBlocks fuel
    (set_blocks (relayout 0 (sort compare_blocks (blocks this))) this).

(** [arr.reduce((sum, b) => sum + b.size, 0)] *)
Definition sum_sizes (bs : list Block.t) : Z :=
  fold_left (fun sum b => sum + Block.size b) bs 0.

(** [Math.max(...xs)] for a non-empty argument list. *)
Definition Math_max (x : Z) (xs : list Z) : Z :=
  fold_left Z.max xs x.

Definition getStats (this : MemoryAllocator) : Stats.t :=
  let totalAllocated := sum_sizes (filter (fun b => Block.allocated b = true) (blocks this)) in
  let totalFree := sum_sizes (filter (fun b => Block.allocated b = false) (blocks this)) in
  let freeBlocks := filter (fun b => Block.allocated b = false) (blocks this) in
  let largestFreeBlock :=
    match Block.size <$> freeBlocks with
    | x :: xs => Math_max x xs
    | [] => 0
    end in
  let fragmentation :=
    if totalFree >? 0
    then (((inject_Z (totalFree - largestFreeBlock)) / inject_Z totalFree) * inject_Z 100)%Q
    else 0%Q in
  {| Stats.totalSize := totalSize this;
     Stats.allocated := totalAllocated;
     Stats.free := totalFree;
     Stats.fragmentation := fragmentation;
     Stats.allocations :=
       length (filter (fun a => Allocation.freed a = false) (allocations this));
     Stats.freeBlocks := length freeBlocks |}.

(** [reset(newSize)]; [newSize] is [None] when the argument is omitted.
    [newSize || this.totalSize] takes [this.totalSize] when [newSize] is
    [undefined] or [0]. *)
Definition reset (newSize : option Z) (this : MemoryAllocator) : MemoryAllocator :=
  let totalSize' :=
    match newSize with
    | Some n => if n =? 0 then totalSize this else n
    | None => totalSize this
    end in
  {| totalSize := totalSize';
     blocks := [ {| Block.start := 0; Block.size := totalSize';
                    Block.allocated := false; Block.id := None |} ];
     allocations := [];
     nextId := 1;
     strategy := strategy this;
     lastSearchIndex := 0%nat |}.

(** ** Sequences of calls *)

Inductive Call : Type :=
  | CallAllocate (size now : Z)
  | CallFree (allocationId : option Z)
  | CallDefragment
  | CallReset (newSize : option Z)
  | CallSetStrategy (st : Strategy)
  | CallGetStats.

(** The allocator after one call, whatever the call returned or threw. *)
Definition call (fuel : nat) (c : Call) (this : MemoryAllocator) : option MemoryAllocator :=
  match c with
  | CallAllocate size now => fst <$> allocate fuel size now this
  | CallFree allocationId => fst <$> free fuel allocationId this
  | CallDefragment => defragment fuel this
  | CallReset newSize => Some (reset newSize this)
  | CallSetStrategy st => Some (setStrategy st this)
  | CallGetStats => Some this
  end.

Fixpoint calls (fuel : nat) (cs : list Call) (this : MemoryAllocator) : option MemoryAllocator :=
  match cs with
  | [] => Some this
  | c :: cs' => this' ← call fuel c this; calls fuel cs' this'
  end.

(** ** Specification vocabulary *)

(** The blocks of [bs] tile the addresses from [pos] on: each block starts
    where the previous one ends. *)
Fixpoint contiguous_from (pos : Z) (bs : list Block.t) : Prop :=
  match bs with
  | [] => True
  | b :: rest => Block.start b = pos /\ contiguous_from (pos + Block.size b) rest
  end.

(** No two neighbours in [bs] are both free. *)
Fixpoint no_adjacent_free (bs : list Block.t) : Prop :=
  match bs with
  | b :: rest =>
      match rest with
      | c :: _ => Block.allocated b || Block.allocated c = true
      | [] => True
      end /\ no_adjacent_free rest
  | [] => True
  end.

(** Sum of the sizes, by recursion on the list. *)
Fixpoint total (bs : list Block.t) : Z :=
  match bs with
  | [] => 0
  | b :: rest => Block.size b + total rest
  end.

(** What the coalescing loop computes, by recursion on the list: [current]
    swallows the free blocks that follow it while it is free itself. *)
Fixpoint absorb (current : Block.t) (rest : list Block.t) : list Block.t :=
  match rest with
  | [] => [current]
  | next :: rest' =>
      if negb (Block.allocated current) && negb (Block.allocated next)
      then absorb (grow (Block.size next) current) rest'
      else current :: absorb next rest'
  end.

Definition coalesce (bs : list Block.t) : list Block.t :=
  match bs with
  | [] => []
  | b :: rest => absorb b rest
  end.

(** The ids carried by the blocks, in list order. *)
Definition owners (bs : list Block.t) : list Z := omap Block.id bs.

(** A block is allocated exactly when it carries an id. *)
Definition tagged (b : Block.t) : Prop :=
  Block.allocated b = true <-> is_Some (Block.id b).

(** The layout invariant of the block list. *)
Record layout_ok (this : MemoryAllocator) : Prop := mk_layout_ok
  { layout_contiguous : contiguous_from 0 (blocks this);
    layout_total : total (blocks this) = totalSize this;
    layout_coalesced : no_adjacent_free (blocks this) }.

(** The bookkeeping invariant: the capacity and the sizes are positive, ids
    are distinct, below [nextId], and present exactly on the allocated
    blocks. *)
Record books_ok (this : MemoryAllocator) : Prop := mk_books_ok
  { books_capacity : 0 < totalSize this;
    books_positive : Forall (fun b => 0 < Block.size b) (blocks this);
    books_tagged : Forall tagged (blocks this);
    books_distinct : NoDup (owners (blocks this));
    books_fresh : Forall (fun n => n < nextId this) (owners (blocks this)) }.

(** Calls that respect the documented argument types: [allocate] takes a
    positive size, [reset] a non-negative one when it takes one at all. *)
Definition valid_call (c : Call) : Prop :=
  match c with
  | CallAllocate size _ => 0 < size
  | CallReset (Some newSize) => 0 <= newSize
  | _ => True
  end.

(** States reached from a fresh allocator by valid calls. *)
Inductive reachable : MemoryAllocator -> Prop :=
  | reachable_new totalSize :
      0 < totalSize -> reachable (constructor totalSize)
  | reachable_call fuel c this this' :
      reachable this -> valid_call c -> call fuel c this = Some this' ->
      reachable this'.

(** The indices visited by a circular scan of [n] slots that starts at [c]. *)
Definition circular_order (n c : nat) : list nat :=
  (fun k => ((c + k) mod n)%nat) <$> seq 0 n.

(** The first index of [order] whose block passes [fits size]. *)
Fixpoint first_fitting (size : Z) (bs : list Block.t) (order : list nat) : Index :=
  match order with
  | [] => NotFound
  | i :: order' =>
      match bs !! i with
      | Some b => if fits size b then Found i else first_fitting size bs order'
      | None => first_fitting size bs order'
      end
  end.

(** The part of a block that [defragment] never touches. *)
Definition payload (b : Block.t) : Z * bool * option Z :=
  (Block.size b, Block.allocated b, Block.id b).

(** ** Vocabulary of the proofs *)

(** The block list after a successful [allocate], when [b] is the chosen
    block, [pre] the blocks before it and [post] the blocks after it. *)
Definition placed (size allocationId : Z) (pre : list Block.t) (b : Block.t)
    (post : list Block.t) : list Block.t :=
  if Block.size b =? size
  then pre ++ mark_allocated allocationId b :: post
  else pre ++ {| Block.start := Block.start b; Block.size := size;
                 Block.allocated := true; Block.id := Some allocationId |}
           :: shrink size b :: post.

Definition allocated_blocks (bs : list Block.t) : list Block.t :=
  filter (fun b => Block.allocated b = true) bs.

Definition free_blocks (bs : list Block.t) : list Block.t :=
  filter (fun b => Block.allocated b = false) bs.

(** The single free block that is left of the free blocks [fs], at [pos]. *)
Definition merged_tail (pos : Z) (fs : list Block.t) : list Block.t :=
  match fs with
  | [] => []
  | f :: _ =>
      [ {| Block.start := pos; Block.size := total fs;
           Block.allocated := Block.allocated f; Block.id := Block.id f |} ]
  end.

(** The largest free block as the specification words it: the maximum of
    the sizes of the free blocks, [0] when there is none. *)
Definition largest_free_block (bs : list Block.t) : Z :=
  foldr Z.max 0 (Block.size <$> free_blocks bs).

(** ** Example states *)

(** [new MemoryAllocator(100)], then [allocate(10)], [allocate(20)],
    [free(1)]: a free block of 10, an allocated block of 20, a free block
    of 70. *)
Definition two_holes_calls : list Call :=
  [CallAllocate 10 0; CallAllocate 20 0; CallFree (Some 1)].

Definition two_holes : MemoryAllocator :=
  {| totalSize := 100;
     blocks :=
       [ {| Block.start := 0; Block.size := 10;
            Block.allocated := false; Block.id := None |};
         {| Block.start := 10; Block.size := 20;
            Block.allocated := true; Block.id := Some 2 |};
         {| Block.start := 30; Block.size := 70;
            Block.allocated := false; Block.id := None |} ];
     allocations :=
       [ {| Allocation.id := 1; Allocation.size := 10;
            Allocation.freed := true; Allocation.timestamp := 0 |};
         {| Allocation.id := 2; Allocation.size := 20;
            Allocation.freed := false; Allocation.timestamp := 0 |} ];
     nextId := 3;
     strategy := FirstFit;
     lastSearchIndex := 1%nat |}.

(** Under next-fit: two allocations of 10, then both are freed, the later
    one first. *)
Definition dangling_calls : list Call :=
  [CallSetStrategy NextFit; CallAllocate 10 0; CallAllocate 10 0;
   CallFree (Some 2); CallFree (Some 1)].

(** Total size 100 with free blocks of 10 and 20 bytes. *)
Definition holes_10_20 : MemoryAllocator :=
  {| totalSize := 100;
     blocks :=
       [ {| Block.start := 0; Block.size := 10;
            Block.allocated := false; Block.id := None |};
         {| Block.start := 10; Block.size := 60;
            Block.allocated := true; Block.id := Some 2 |};
         {| Block.start := 70; Block.size := 20;
            Block.allocated := false; Block.id := None |};
         {| Block.start := 90; Block.size := 10;
            Block.allocated := true; Block.id := Some 4 |} ];
     allocations := [];
     nextId := 5;
     strategy := FirstFit;
     lastSearchIndex := 3%nat |}.

(** Total size 100 with a single free block of 30 bytes. *)
Definition hole_30 : MemoryAllocator :=
  {| totalSize := 100;
     blocks :=
       [ {| Block.start := 0; Block.size := 70;
            Block.allocated := true; Block.id := Some 1 |};
         {| Block.start := 70; Block.size := 30;
            Block.allocated := false; Block.id := None |} ];
     allocations := [];
     nextId := 2;
     strategy := FirstFit;
     lastSearchIndex := 0%nat |}.

(** ** Vocabulary of the further properties *)

(** What the [for] loop of [bestFit] knows after the blocks [seen]: nothing
    fitted so far, or [idx] is the first of the smallest fitting blocks and
    [bound] its size. *)
Definition best_so_far (size : Z) (seen : list Block.t) (idx : Index)
    (bound : option Z) : Prop :=
  match idx with
  | NotFound => bound = None /\ Forall (fun b => fits size b = false) seen
  | Found k =>
      exists b, seen !! k = Some b /\ fits size b = true /\
        bound = Some (Block.size b) /\
        forall j c, seen !! j = Some c -> fits size c = true ->
          Block.size b <= Block.size c /\
          ((j < k)%nat -> Block.size b < Block.size c)
  end.

(** The same for [worstFit]: [idx] is the first of the largest fitting
    blocks. *)
Definition worst_so_far (size : Z) (seen : list Block.t) (idx : Index)
    (bound : Z) : Prop :=
  match idx with
  | NotFound => bound = -1 /\ Forall (fun b => fits size b = false) seen
  | Found k =>
      exists b, seen !! k = Some b /\ fits size b = true /\
        bound = Block.size b /\
        forall j c, seen !! j = Some c -> fits size c = true ->
          Block.size c <= Block.size b /\
          ((j < k)%nat -> Block.size c < Block.size b)
  end.

(** The (id, size) pairs of the blocks that carry an id, in list order. *)
Definition live (bs : list Block.t) : list (Z * Z) :=
  omap (fun b => (fun n => (n, Block.size b)) <$> Block.id b) bs.

(** The (id, size) pairs of the allocation records that are not freed. *)
Definition active (al : list Allocation.t) : list (Z * Z) :=
  (fun a => (Allocation.id a, Allocation.size a))
    <$> filter (fun a => Allocation.freed a = false) al.

(** The history invariant: the records carry the ids [1 .. nextId - 1] in
    this order, and the records that are not freed are the blocks that carry
    an id, with the same sizes. *)
Record history_ok (this : MemoryAllocator) : Prop := mk_history_ok
  { history_next : 1 <= nextId this;
    history_ids : Allocation.id <$> allocations this = seqZ 1 (nextId this - 1);
    history_live : live (blocks this) ≡ₚ active (allocations this) }.

(** One block, and a cursor left behind by blocks that were merged away
    (the state reached by [dangling_calls]). *)
Definition stale_cursor : MemoryAllocator :=
  {| totalSize := 100;
     blocks := [ {| Block.start := 0; Block.size := 100;
                    Block.allocated := false; Block.id := None |} ];
     allocations :=
       [ {| Allocation.id := 1; Allocation.size := 10;
            Allocation.freed := true; Allocation.timestamp := 0 |};
         {| Allocation.id := 2; Allocation.size := 10;
            Allocation.freed := true; Allocation.timestamp := 0 |} ];
     nextId := 3;
     strategy := NextFit;
     lastSearchIndex := 1%nat |}.

(** Sum of a list of integers. *)
Definition sumZ (xs : list Z) : Z := foldr Z.add 0 xs.

(** ** The page controller [AllocatorUI]

    Only what the controller computes is modelled: the cells of the memory
    grid, grouped in rows, and the effect of the "Free Random" button on the
    allocator together with the notification it shows.  A cell stands for the
    [div] that [renderMemoryGrid] creates: its CSS class and the block it is
    drawn for, which determine its text, its tooltip and its click handler. *)

(** [this.blockSize], the number of bytes drawn as one cell. *)
Definition blockSize : Z := 16.

(** [blocksPerRow] *)
Definition blocksPerRow : nat := 32.

(** [Math.ceil(x / d)] on integers.  For [d = 16] the quotient of the doubles
    is exact, so this is the value the program computes. *)
Definition Math_ceil_div (x d : Z) : Z := - ((- x) / d).

(** The classes ['allocated'], ['fragmented'] and ['free'] of a cell. *)
Inductive CellClass : Type :=
  | CellAllocated
  | CellFragmented
  | CellFree.

Record Cell : Type := mkCell
  { cell_class : CellClass;
    cell_block : Block.t }.

(** The class chosen for the cells of [memBlock]; [allocSize] is the value
    of the allocation-size slider. *)
Definition cell_of (allocSize : Z) (memBlock : Block.t) : Cell :=
  {| cell_class :=
       if Block.allocated memBlock then CellAllocated
       else if Block.size memBlock <? allocSize then CellFragmented
       else CellFree;
     cell_block := memBlock |}.

(** The inner [for] loop of [renderMemoryGrid]: [count] cells for one block.
    [rows] are the rows appended to the grid so far, the last of them being
    the variable [row]; a new row is started when [currentBlockIndex] is a
    multiple of [blocksPerRow]. *)
Fixpoint draw_cells (count : nat) (cell : Cell) (rows : list (list Cell))
    (currentBlockIndex : nat) : list (list Cell) * nat :=
  match count with
  | O => (rows, currentBlockIndex)
  | S count' =>
      let rows1 :=
        if (currentBlockIndex mod blocksPerRow =? 0)%nat then rows ++ [[]]
        else rows in
      let rows2 := alter (fun row => row ++ [cell]) (length rows1 - 1)%nat rows1 in
      draw_cells count' cell rows2 (S currentBlockIndex)
  end.

(** The outer [for ... of] loop of [renderMemoryGrid]. *)
Fixpoint renderMemoryGrid_loop (allocSize : Z) (bs : list Block.t)
    (rows : list (list Cell)) (currentBlockIndex : nat) : list (list Cell) :=
  match bs with
  | [] => rows
  | memBlock :: rest =>
      let numBlocks := Math_ceil_div (Block.size memBlock) blockSize in
      let '(rows', currentBlockIndex') :=
        draw_cells (Z.to_nat numBlocks) (cell_of allocSize memBlock)
          rows currentBlockIndex in
      renderMemoryGrid_loop allocSize rest rows' currentBlockIndex'
  end.

(** The rows of the grid drawn for the allocator. *)
Definition renderMemoryGrid (allocSize : Z) (this : MemoryAllocator)
    : list (list Cell) :=
  renderMemoryGrid_loop allocSize (blocks this) [] 0%nat.

(** [totalBlocks], which [renderMemoryGrid] computes and does not use. *)
Definition totalBlocks (this : MemoryAllocator) : Z :=
  Math_ceil_div (totalSize this) blockSize.

(** The cells of the grid in drawing order, by recursion on the blocks. *)
Definition grid_cells (allocSize : Z) (bs : list Block.t) : list Cell :=
  bs ≫= fun b =>
    replicate (Z.to_nat (Math_ceil_div (Block.size b) blockSize)) (cell_of allocSize b).

(** The notifications of the "Free Random" button:
    ['No allocations to free!'] (of type ['error']) and
    ['Freed allocation <id> (<size> bytes)'] (of type ['success']). *)
Inductive Notification : Type :=
  | NoAllocationsToFree
  | FreedAllocation (id size : Z).

(** The click handler of the "Free Random" button.  [pick] is the value of
    [Math.floor(Math.random() * activeAllocs.length)]; reading [.id] of an
    element beyond the array throws.  The result of [free] is not looked
    at. *)
Definition free_random_click (fuel : nat) (pick : nat) (this : MemoryAllocator)
    : option (MemoryAllocator * Completion Notification) :=
  let activeAllocs :=
    filter (fun a => Allocation.freed a = false) (allocations this) in
  if (length activeAllocs =? 0)%nat then Some (this, Normal NoAllocationsToFree)
  else
    match activeAllocs !! pick with
    | None => Some (this, TypeError)
    | Some randomAlloc =>
        r ← free fuel (Some (Allocation.id randomAlloc)) this;
        Some (fst r,
              Normal (FreedAllocation (Allocation.id randomAlloc)
                        (Allocation.size randomAlloc)))
    end.

(** The grid invariant of [draw_cells]: every row but the last is full, the
    last one is neither empty nor too long, and [currentBlockIndex] counts
    the cells. *)
Definition rows_ok (rows : list (list Cell)) (currentBlockIndex : nat) : Prop :=
  (rows = [] /\ currentBlockIndex = 0%nat) \/
  exists full last,
    rows = full ++ [last] /\
    Forall (fun row => length row = blocksPerRow) full /\
    (0 < length last <= blocksPerRow)%nat /\
    currentBlockIndex = (blocksPerRow * length full + length last)%nat.

(** ** Lists: updates in the middle *)

Section Middle.
Context {A : Type}.
Implicit Types (l pre post : list A) (x y : A).

Lemma lookup_split l i x :
  l !! i = Some x -> exists pre post, l = pre ++ x :: post /\ length pre = i.
Proof.
  intros H. exists (take i l), (drop (S i) l). split.
  - symmetry. by apply take_drop_middle.
  - apply length_take_le. apply lookup_lt_Some in H. lia.
Qed.

Lemma insert_middle pre x y post :
  <[length pre := y]> (pre ++ x :: post) = pre ++ y :: post.
Proof. rewrite insert_app_r_alt by lia. by rewrite Nat.sub_diag. Qed.

Lemma alter_middle (f : A -> A) pre x post :
  alter f (length pre) (pre ++ x :: post) = pre ++ f x :: post.
Proof. rewrite alter_app_r_alt by lia. by rewrite Nat.sub_diag. Qed.

Lemma splice_in_middle pre y l :
  splice_in (length pre) y (pre ++ l) = pre ++ y :: l.
Proof. unfold splice_in. by rewrite take_app_length, drop_app_length. Qed.

Lemma splice_out_middle pre x post :
  splice_out (length pre) (pre ++ x :: post) = pre ++ post.
Proof. apply delete_middle. Qed.

End Middle.

(** ** The coalescing loop *)

Lemma merge_loop_unfold fuel i bs :
  merge_loop (S fuel) i bs =
    if (i + 1 <? length bs)%nat then
      match bs !! i, bs !! (i + 1)%nat with
      | Some current, Some next =>
          if negb (Block.allocated current) && negb (Block.allocated next)
          then merge_loop fuel i
                 (splice_out (i + 1) (<[i := grow (Block.size next) current]> bs))
          else merge_loop fuel (i + 1) bs
      | _, _ => None
      end
    else Some bs.
Proof. reflexivity. Qed.

(** With [pre] already scanned, the loop coalesces the rest of the list; the
    number of loop tests is at most the number of blocks left, plus one. *)
Lemma merge_loop_coalesce fuel : forall pre l,
  (length l < fuel)%nat ->
  merge_loop fuel (length pre) (pre ++ l) = Some (pre ++ coalesce l).
Proof.
  induction fuel as [|fuel IH]; intros pre l Hfuel; [lia|].
  rewrite merge_loop_unfold, length_app.
  destruct l as [|current [|next rest]].
  - simpl. rewrite (proj2 (Nat.ltb_ge _ _)) by lia. done.
  - simpl. rewrite (proj2 (Nat.ltb_ge _ _)) by lia. done.
  - rewrite (proj2 (Nat.ltb_lt _ _)) by (simpl; lia).
    rewrite (list_lookup_middle pre _ current) by done.
    replace (pre ++ current :: next :: rest)
      with ((pre ++ [current]) ++ next :: rest) at 1 by by rewrite <- app_assoc.
    rewrite (list_lookup_middle (pre ++ [current]) _ next)
      by (rewrite length_app; simpl; lia).
    simpl coalesce.
    destruct (negb (Block.allocated current) && negb (Block.allocated next)) eqn:Hfree.
    + rewrite insert_middle.
      replace (pre ++ grow (Block.size next) current :: next :: rest)
        with ((pre ++ [grow (Block.size next) current]) ++ next :: rest)
        by by rewrite <- app_assoc.
      replace (length pre + 1)%nat
        with (length (pre ++ [grow (Block.size next) current]))
        by (rewrite length_app; simpl; lia).
      rewrite splice_out_middle, <- app_assoc. simpl.
      rewrite (IH pre (grow (Block.size next) current :: rest)) by (simpl in *; lia).
      done.
    + replace (length pre + 1)%nat with (length (pre ++ [current]))
        by (rewrite length_app; simpl; lia).
      replace (pre ++ current :: next :: rest)
        with ((pre ++ [current]) ++ next :: rest) by by rewrite <- app_assoc.
      rewrite (IH (pre ++ [current]) (next :: rest)) by (simpl in *; lia).
      simpl. by rewrite <- app_assoc.
Qed.

Lemma merge_loop_total fuel bs :
  (length bs < fuel)%nat -> merge_loop fuel 0 bs = Some (coalesce bs).
Proof. intros H. exact (merge_loop_coalesce fuel [] bs H). Qed.

(** ** Sums, contiguity and neighbours *)

Lemma total_app l1 l2 : total (l1 ++ l2) = total l1 + total l2.
Proof. induction l1 as [|b l1 IH]; simpl; lia. Qed.

Lemma sum_sizes_from acc bs :
  fold_left (fun sum b => sum + Block.size b) bs acc = acc + total bs.
Proof.
  revert acc. induction bs as [|b bs IH]; intros acc; simpl; [lia|].
  rewrite IH. lia.
Qed.

Lemma sum_sizes_total bs : sum_sizes bs = total bs.
Proof. unfold sum_sizes. by rewrite sum_sizes_from. Qed.

Lemma contiguous_app p l1 l2 :
  contiguous_from p (l1 ++ l2) <->
  contiguous_from p l1 /\ contiguous_from (p + total l1) l2.
Proof.
  revert p. induction l1 as [|b l1 IH]; intros p; simpl.
  - rewrite Z.add_0_r. tauto.
  - rewrite IH, Z.add_assoc. tauto.
Qed.

Lemma no_adjacent_free_app_cons pre b post :
  no_adjacent_free (pre ++ b :: post) <->
  no_adjacent_free (pre ++ [b]) /\ no_adjacent_free (b :: post).
Proof.
  induction pre as [|a pre IH].
  - simpl. tauto.
  - change ((a :: pre) ++ b :: post) with (a :: (pre ++ b :: post)).
    change ((a :: pre) ++ [b]) with (a :: (pre ++ [b])).
    cbn [no_adjacent_free]. rewrite IH.
    destruct pre as [|a' pre]; simpl; tauto.
Qed.

(** Turning free blocks into allocated ones keeps neighbours apart. *)
Lemma no_adjacent_free_mono l l' :
  Forall2 (fun b b' => Block.allocated b = true -> Block.allocated b' = true) l l' ->
  no_adjacent_free l -> no_adjacent_free l'.
Proof.
  induction 1 as [|b b' l l' Hb Hl IH]; [done|].
  cbn [no_adjacent_free]. intros [Hhead Htail]. split; [|by apply IH].
  destruct Hl as [|c c' l l' Hc _]; [done|].
  destruct (Block.allocated b), (Block.allocated c); simpl in *;
    try discriminate; rewrite ?Hb, ?Hc by done; by rewrite ?orb_true_r.
Qed.

Lemma Forall2_same_flag l :
  Forall2 (fun b b' : Block.t => Block.allocated b = true -> Block.allocated b' = true) l l.
Proof. induction l; constructor; auto. Qed.

(** ** What coalescing keeps *)

Lemma absorb_total c l : total (absorb c l) = Block.size c + total l.
Proof.
  revert c. induction l as [|n l IH]; intros c; simpl; [done|].
  destruct (negb (Block.allocated c) && negb (Block.allocated n)).
  - rewrite IH. simpl. lia.
  - simpl. rewrite IH. lia.
Qed.

Lemma absorb_head c l :
  exists c' tl, absorb c l = c' :: tl /\ Block.start c' = Block.start c /\
    Block.allocated c' = Block.allocated c /\ Block.id c' = Block.id c.
Proof.
  revert c. induction l as [|n l IH]; intros c; simpl; [by eexists _, _|].
  destruct (negb (Block.allocated c) && negb (Block.allocated n));
    [|by eexists _, _].
  destruct (IH (grow (Block.size n) c)) as (c' & tl & -> & ? & ? & ?).
  by eexists _, _.
Qed.

Lemma absorb_contiguous p c l :
  contiguous_from p (c :: l) -> contiguous_from p (absorb c l).
Proof.
  revert p c. induction l as [|n l IH]; intros p c; [done|].
  intros (Hc & Hn & Hl). simpl.
  destruct (negb (Block.allocated c) && negb (Block.allocated n)).
  - apply IH. simpl. split; [done|]. by rewrite Z.add_assoc.
  - split; [done|]. apply IH. by split.
Qed.

Lemma absorb_no_adjacent_free c l : no_adjacent_free (absorb c l).
Proof.
  revert c. induction l as [|n l IH]; intros c; simpl; [done|].
  destruct (negb (Block.allocated c) && negb (Block.allocated n)) eqn:Hfree; [done|].
  specialize (IH n).
  destruct (absorb_head n l) as (n' & tl & Heq & _ & Hflag & _).
  rewrite Heq in *. split; [|done]. rewrite Hflag.
  by destruct (Block.allocated c), (Block.allocated n).
Qed.

Lemma absorb_owners c l : owners (absorb c l) `sublist_of` owners (c :: l).
Proof.
  revert c. induction l as [|n l IH]; intros c; [done|]. simpl.
  destruct (negb (Block.allocated c) && negb (Block.allocated n)).
  - etrans; [apply IH|]. unfold owners. simpl.
    destruct (Block.id c), (Block.id n); repeat constructor; done.
  - specialize (IH n). unfold owners in *. simpl in *.
    destruct (Block.id c); [by constructor | done].
Qed.

Lemma absorb_Forall (P : Block.t -> Prop) c l :
  (forall a b, P a -> P b -> Block.allocated a = false ->
     P (grow (Block.size b) a)) ->
  Forall P (c :: l) -> Forall P (absorb c l).
Proof.
  intros Hgrow. revert c. induction l as [|n l IH]; intros c; [done|].
  intros H. apply Forall_cons in H as (Hc & H).
  pose proof H as H'. apply Forall_cons in H' as (Hn & Hl). simpl.
  destruct (negb (Block.allocated c) && negb (Block.allocated n)) eqn:Hfree.
  - apply IH. apply Forall_cons. split; [|done].
    apply Hgrow; [done..|]. by destruct (Block.allocated c).
  - apply Forall_cons. split; [done|]. by apply IH.
Qed.

Lemma coalesce_total bs : total (coalesce bs) = total bs.
Proof. destruct bs as [|b bs]; [done|]. apply absorb_total. Qed.

Lemma coalesce_contiguous p bs :
  contiguous_from p bs -> contiguous_from p (coalesce bs).
Proof. destruct bs as [|b bs]; [done|]. apply absorb_contiguous. Qed.

Lemma coalesce_no_adjacent_free bs : no_adjacent_free (coalesce bs).
Proof. destruct bs as [|b bs]; [done|]. apply absorb_no_adjacent_free. Qed.

Lemma coalesce_owners bs : owners (coalesce bs) `sublist_of` owners bs.
Proof. destruct bs as [|b bs]; [done|]. apply absorb_owners. Qed.

Lemma coalesce_positive bs :
  Forall (fun b => 0 < Block.size b) bs ->
  Forall (fun b => 0 < Block.size b) (coalesce bs).
Proof.
  destruct bs as [|b bs]; [done|].
  apply absorb_Forall. intros a c ? ? _. simpl. lia.
Qed.

Lemma coalesce_tagged bs : Forall tagged bs -> Forall tagged (coalesce bs).
Proof.
  destruct bs as [|b bs]; [done|].
  apply absorb_Forall. intros a c Ha _ _. exact Ha.
Qed.

(** A list without free neighbours is left as it is. *)
Lemma absorb_fixed c l : no_adjacent_free (c :: l) -> absorb c l = c :: l.
Proof.
  revert c. induction l as [|n l IH]; intros c; [done|].
  intros [Hcn Hrest]. simpl.
  destruct (Block.allocated c), (Block.allocated n); simpl in *;
    try discriminate; by rewrite IH.
Qed.

Lemma coalesce_fixed bs : no_adjacent_free bs -> coalesce bs = bs.
Proof. destruct bs as [|b bs]; [done|]. apply absorb_fixed. Qed.

(** ** The searches *)

Lemma fits_spec size b :
  fits size b = true <-> Block.allocated b = false /\ size <= Block.size b.
Proof.
  unfold fits. rewrite andb_true_iff, negb_true_iff, Z.geb_le. tauto.
Qed.

Lemma findIndex_from_Found {A : Type} (p : A -> bool) (l : list A) k i :
  findIndex_from p l k = Found i ->
  exists j x, i = (k + j)%nat /\ l !! j = Some x /\ p x = true /\
    forall j' y, (j' < j)%nat -> l !! j' = Some y -> p y = false.
Proof.
  revert k. induction l as [|a l IH]; intros k; simpl; [done|].
  destruct (p a) eqn:Hp.
  - intros [= <-]. exists 0%nat, a. repeat split; [lia | done | lia].
  - intros H. destruct (IH _ H) as (j & x & -> & Hj & Hx & Hmin).
    exists (S j), x. repeat split; [lia | done..|].
    intros [|j'] y Hlt Hy; simpl in Hy; [by simplify_eq|].
    apply (Hmin j'); [lia | done].
Qed.

Lemma findIndex_from_NotFound {A : Type} (p : A -> bool) (l : list A) k :
  findIndex_from p l k = NotFound <-> Forall (fun x => p x = false) l.
Proof.
  revert k. induction l as [|a l IH]; intros k; simpl.
  - split; [by constructor | done].
  - rewrite Forall_cons. destruct (p a); [|rewrite IH; tauto].
    split; [done | by intros [? _]].
Qed.

Lemma findIndex_Found {A : Type} (p : A -> bool) (l : list A) i :
  findIndex p l = Found i ->
  exists x, l !! i = Some x /\ p x = true /\
    forall j y, (j < i)%nat -> l !! j = Some y -> p y = false.
Proof.
  intros H. apply findIndex_from_Found in H as (j & x & -> & ? & ? & ?).
  by exists x.
Qed.

Lemma findIndex_NotFound {A : Type} (p : A -> bool) (l : list A) :
  findIndex p l = NotFound <-> Forall (fun x => p x = false) l.
Proof. apply findIndex_from_NotFound. Qed.

Lemma bestFit_loop_Found size rest i acc bound r :
  bestFit_loop size rest i acc bound = Found r ->
  acc = Found r \/
  exists j b, r = (i + j)%nat /\ rest !! j = Some b /\ fits size b = true.
Proof.
  revert i acc bound. induction rest as [|b rest IH]; intros i acc bound; simpl.
  - intros ->. by left.
  - destruct (fits size b) eqn:Hfit; simpl.
    + destruct (below (Block.size b) bound); intros H;
        apply IH in H as [H | (j & c & -> & Hj & Hc)].
      * simplify_eq. right. exists 0%nat, b. by rewrite Nat.add_0_r.
      * right. exists (S j), c. split; [lia | done].
      * by left.
      * right. exists (S j), c. split; [lia | done].
    + intros H. apply IH in H as [H | (j & c & -> & Hj & Hc)]; [by left|].
      right. exists (S j), c. split; [lia | done].
Qed.

Lemma bestFit_loop_none size rest i acc bound :
  Forall (fun b => fits size b = false) rest ->
  bestFit_loop size rest i acc bound = acc.
Proof.
  intros H. revert i. induction H as [|b rest Hb _ IH]; intros i; simpl; [done|].
  rewrite Hb. apply IH.
Qed.

Lemma worstFit_loop_Found size rest i acc bound r :
  worstFit_loop size rest i acc bound = Found r ->
  acc = Found r \/
  exists j b, r = (i + j)%nat /\ rest !! j = Some b /\ fits size b = true.
Proof.
  revert i acc bound. induction rest as [|b rest IH]; intros i acc bound; simpl.
  - intros ->. by left.
  - destruct (fits size b) eqn:Hfit; simpl.
    + destruct (Block.size b >? bound); intros H;
        apply IH in H as [H | (j & c & -> & Hj & Hc)].
      * simplify_eq. right. exists 0%nat, b. by rewrite Nat.add_0_r.
      * right. exists (S j), c. split; [lia | done].
      * by left.
      * right. exists (S j), c. split; [lia | done].
    + intros H. apply IH in H as [H | (j & c & -> & Hj & Hc)]; [by left|].
      right. exists (S j), c. split; [lia | done].
Qed.

Lemma worstFit_loop_none size rest i acc bound :
  Forall (fun b => fits size b = false) rest ->
  worstFit_loop size rest i acc bound = acc.
Proof.
  intros H. revert i bound.
  induction H as [|b rest Hb _ IH]; intros i bound; simpl; [done|].
  rewrite Hb. apply IH.
Qed.

Lemma nextFit_loop_Found fuel bs size c : forall cur i,
  nextFit_loop fuel bs size c cur = Some (Normal (Found i)) ->
  exists b, bs !! i = Some b /\ fits size b = true.
Proof.
  induction fuel as [|fuel IH]; intros cur i; simpl; [done|].
  destruct (bs !! cur) as [b|] eqn:Hb; [|done].
  destruct (fits size b) eqn:Hfit.
  - intros [= <-]. by exists b.
  - destruct (_ =? c)%nat; [done|]. apply IH.
Qed.

(** Whatever the strategy, a search that returns an index returns the index of
    a free block that is large enough. *)
Lemma search_Found fuel this size i :
  search fuel this size = Some (Normal (Found i)) ->
  exists b, blocks this !! i = Some b /\ fits size b = true.
Proof.
  unfold search. destruct (strategy this).
  - intros [= H]. apply findIndex_Found in H as (b & ? & ? & _). by exists b.
  - intros [= H]. apply bestFit_loop_Found in H as [|(j & b & -> & ? & ?)]; [done|].
    by exists b.
  - intros [= H]. apply worstFit_loop_Found in H as [|(j & b & -> & ? & ?)]; [done|].
    by exists b.
  - apply nextFit_loop_Found.
  - done.
Qed.

(** *** The circular scan of next-fit *)

Lemma scan_next (c k n : nat) :
  (((c + k) mod n + 1) mod n = (c + S k) mod n)%nat.
Proof.
  rewrite Nat.Div0.add_mod_idemp_l. f_equal. lia.
Qed.

Lemma scan_wraps (c n : nat) : (c < n -> (c + n) mod n = c)%nat.
Proof.
  intros H. replace (c + n)%nat with (c + 1 * n)%nat by lia.
  rewrite Nat.Div0.mod_add. by apply Nat.mod_small.
Qed.

Lemma scan_apart (c k n : nat) :
  (c < n -> 0 < k -> k < n -> (c + k) mod n <> c)%nat.
Proof.
  intros Hc Hk Hkn Heq.
  destruct (decide (c + k < n)%nat) as [Hlt|Hge].
  - rewrite Nat.mod_small in Heq by done. lia.
  - replace (c + k)%nat with ((c + k - n) + 1 * n)%nat in Heq by lia.
    rewrite Nat.Div0.mod_add, Nat.mod_small in Heq by lia. lia.
Qed.

(** From the [k]-th slot of the scan on, with fuel for the slots that are
    left, the loop returns the first fitting block among them. *)
Lemma nextFit_loop_scan bs size c fuel : forall k,
  (c < length bs)%nat -> (k < length bs)%nat -> (length bs - k <= fuel)%nat ->
  nextFit_loop fuel bs size c ((c + k) mod length bs)%nat =
    Some (Normal (first_fitting size bs
      ((fun j => ((c + j) mod length bs)%nat) <$> seq k (length bs - k)))).
Proof.
  induction fuel as [|fuel IH]; intros k Hc Hk Hfuel; [lia|].
  replace (length bs - k)%nat with (S (length bs - S k)) by lia.
  cbn [nextFit_loop seq fmap list_fmap first_fitting].
  destruct (lookup_lt_is_Some_2 bs ((c + k) mod length bs)%nat) as [b Hb].
  { apply Nat.mod_upper_bound. lia. }
  rewrite Hb. destruct (fits size b); [done|].
  rewrite scan_next.
  destruct (decide (S k = length bs)) as [Hend|Hmore].
  - rewrite Hend, scan_wraps, Nat.eqb_refl, Nat.sub_diag by done. done.
  - rewrite (proj2 (Nat.eqb_neq _ _)) by (apply scan_apart; lia).
    apply IH; lia.
Qed.

(** With less fuel than slots that do not fit, the loop is still running. *)
Lemma nextFit_loop_short bs size c fuel : forall k,
  (c < length bs)%nat -> (k + fuel < length bs)%nat ->
  Forall (fun b => fits size b = false) bs ->
  nextFit_loop fuel bs size c ((c + k) mod length bs)%nat = None.
Proof.
  induction fuel as [|fuel IH]; intros k Hc Hk Hnone; [done|].
  cbn [nextFit_loop].
  destruct (lookup_lt_is_Some_2 bs ((c + k) mod length bs)%nat) as [b Hb].
  { apply Nat.mod_upper_bound. lia. }
  rewrite Hb.
  rewrite (proj1 (Forall_forall _ _) Hnone b) by by eapply list_elem_of_lookup_2.
  rewrite scan_next.
  rewrite (proj2 (Nat.eqb_neq _ _)) by (apply scan_apart; lia).
  apply IH; [done | lia | done].
Qed.

Lemma first_fitting_none size bs order :
  Forall (fun b => fits size b = false) bs -> first_fitting size bs order = NotFound.
Proof.
  intros Hnone. induction order as [|i order IH]; simpl; [done|].
  destruct (bs !! i) as [b|] eqn:Hb; [|done].
  by rewrite (proj1 (Forall_forall _ _) Hnone b) by by eapply list_elem_of_lookup_2.
Qed.

Lemma first_fitting_Found size bs order i :
  first_fitting size bs order = Found i <->
  exists k b, order !! k = Some i /\ bs !! i = Some b /\ fits size b = true /\
    forall j i' b', (j < k)%nat -> order !! j = Some i' -> bs !! i' = Some b' ->
      fits size b' = false.
Proof.
  induction order as [|a order IH]; simpl.
  - split; [done | by intros (k & b & ? & _)].
  - destruct (bs !! a) as [b|] eqn:Hb; [destruct (fits size b) eqn:Hfit|].
    + split.
      * intros [= <-]. exists 0%nat, b. repeat split; [done..|]. intros; lia.
      * intros ([|k] & b' & Hk & Hb' & Hfit' & Hmin); simpl in Hk; [by simplify_eq|].
        specialize (Hmin 0%nat a b). rewrite Hmin in Hfit by (done || lia). done.
    + rewrite IH. split.
      * intros (k & b' & ? & ? & ? & Hmin). exists (S k), b'. repeat split; [done..|].
        intros [|j] i' c Hj Hi' Hc; simpl in Hi'; [by simplify_eq|].
        apply (Hmin j i'); [lia | done..].
      * intros ([|k] & b' & Hk & Hb' & Hfit' & Hmin); simpl in Hk;
          [simplify_eq; congruence|].
        exists k, b'. repeat split; [done..|].
        intros j i' c Hj Hi' Hc. apply (Hmin (S j) i'); [lia | done..].
    + rewrite IH. split.
      * intros (k & b' & ? & ? & ? & Hmin). exists (S k), b'. repeat split; [done..|].
        intros [|j] i' c Hj Hi' Hc; simpl in Hi'; [by simplify_eq|].
        apply (Hmin j i'); [lia | done..].
      * intros ([|k] & b' & Hk & Hb' & Hfit' & Hmin); simpl in Hk;
          [simplify_eq; congruence|].
        exists k, b'. repeat split; [done..|].
        intros j i' c Hj Hi' Hc. apply (Hmin (S j) i'); [lia | done..].
Qed.

Lemma circular_order_lookup n c k :
  (k < n)%nat -> circular_order n c !! k = Some ((c + k) mod n)%nat.
Proof.
  intros Hk. unfold circular_order.
  by rewrite list_lookup_fmap, lookup_seq_lt.
Qed.

(** ** What [allocate] does to the block list *)

Lemma allocate_Found fuel size now this i :
  search fuel this size = Some (Normal (Found i)) ->
  exists pre b post,
    blocks this = pre ++ b :: post /\ length pre = i /\ fits size b = true /\
    allocate fuel size now this =
      Some ({| totalSize := totalSize this;
               blocks := placed size (nextId this) pre b post;
               allocations :=
                 allocations this ++
                   [ {| Allocation.id := nextId this; Allocation.size := size;
                        Allocation.freed := false; Allocation.timestamp := now |} ];
               nextId := nextId this + 1;
               strategy := strategy this;
               lastSearchIndex := i |},
            Normal (AllocationId (nextId this))).
Proof.
  intros Hsearch.
  destruct (search_Found _ _ _ _ Hsearch) as (b & Hb & Hfit).
  destruct (lookup_split _ _ _ Hb) as (pre & post & Hbs & Hlen).
  exists pre, b, post. repeat split; [done..|].
  unfold allocate, placed. rewrite Hsearch. simpl. rewrite Hb.
  rewrite Hbs, <- Hlen. f_equal. f_equal. f_equal.
  destruct (Block.size b =? size).
  - apply insert_middle.
  - by rewrite insert_middle, splice_in_middle.
Qed.

(** The outcomes of [allocate]: no change (the search found nothing, or
    threw), or a block placed. *)
Lemma allocate_outcome fuel size now this this' r :
  allocate fuel size now this = Some (this', r) ->
  (this' = this /\ (r = Normal Null \/ r = TypeError)) \/
  exists pre b post,
    blocks this = pre ++ b :: post /\ fits size b = true /\
    r = Normal (AllocationId (nextId this)) /\
    this' = {| totalSize := totalSize this;
               blocks := placed size (nextId this) pre b post;
               allocations :=
                 allocations this ++
                   [ {| Allocation.id := nextId this; Allocation.size := size;
                        Allocation.freed := false; Allocation.timestamp := now |} ];
               nextId := nextId this + 1;
               strategy := strategy this;
               lastSearchIndex := length pre |}.
Proof.
  intros H.
  destruct (search fuel this size) as [[[i|]|]|] eqn:Hsearch.
  - destruct (allocate_Found _ size now _ _ Hsearch)
      as (pre & b & post & Hbs & Hlen & Hfit & Heq).
    rewrite Heq in H. simplify_eq. right. by exists pre, b, post.
  - unfold allocate in H. rewrite Hsearch in H. simplify_eq/=. left. auto.
  - unfold allocate in H. rewrite Hsearch in H. simplify_eq/=. left. auto.
  - unfold allocate in H. rewrite Hsearch in H. done.
Qed.

Lemma placed_contiguous size n pre b post :
  contiguous_from 0 (pre ++ b :: post) ->
  contiguous_from 0 (placed size n pre b post).
Proof.
  unfold placed. rewrite contiguous_app. intros (Hpre & Hb & Hpost).
  destruct (Block.size b =? size); rewrite contiguous_app; simpl.
  - done.
  - repeat split; [done | done | lia |].
    by replace (0 + total pre + size + (Block.size b - size))
      with (0 + total pre + Block.size b) by lia.
Qed.

Lemma placed_total size n pre b post :
  total (placed size n pre b post) = total (pre ++ b :: post).
Proof.
  unfold placed. destruct (Block.size b =? size);
    rewrite !total_app; simpl; lia.
Qed.

Lemma placed_no_adjacent_free size n pre b post :
  no_adjacent_free (pre ++ b :: post) ->
  no_adjacent_free (placed size n pre b post).
Proof.
  unfold placed. destruct (Block.size b =? size).
  - apply no_adjacent_free_mono. apply Forall2_app; [apply Forall2_same_flag|].
    constructor; [done | apply Forall2_same_flag].
  - intros H. apply no_adjacent_free_app_cons in H as [Hpre Hpost].
    apply no_adjacent_free_app_cons. split.
    + revert Hpre. apply no_adjacent_free_mono.
      apply Forall2_app; [apply Forall2_same_flag | by repeat constructor].
    + split; [done|]. revert Hpost. apply no_adjacent_free_mono.
      constructor; [done | apply Forall2_same_flag].
Qed.

Lemma owners_app l1 l2 : owners (l1 ++ l2) = owners l1 ++ owners l2.
Proof. apply omap_app. Qed.

Lemma placed_owners size n pre b post :
  Block.id b = None ->
  owners (placed size n pre b post) = owners pre ++ n :: owners post.
Proof.
  intros Hid. unfold placed, owners.
  destruct (Block.size b =? size); rewrite omap_app; simpl; by rewrite ?Hid.
Qed.

Lemma free_block_untagged b :
  tagged b -> Block.allocated b = false -> Block.id b = None.
Proof.
  unfold tagged. intros [_ H] Hfree. destruct (Block.id b) eqn:Hid; [|done].
  rewrite Hfree in H. by discriminate H.
Qed.

Lemma Forall_sublist_of {A : Type} (P : A -> Prop) (l k : list A) :
  l `sublist_of` k -> Forall P k -> Forall P l.
Proof.
  intros Hsub. rewrite !Forall_forall. intros H x Hx.
  apply H. by eapply sublist_subseteq.
Qed.

(** ** Fuel *)

Lemma merge_loop_mono fuel : forall fuel' i bs r,
  (fuel <= fuel')%nat ->
  merge_loop fuel i bs = Some r -> merge_loop fuel' i bs = Some r.
Proof.
  induction fuel as [|fuel IH]; intros fuel' i bs r Hle; [done|].
  destruct fuel' as [|fuel']; [lia|].
  rewrite !merge_loop_unfold.
  destruct (i + 1 <? length bs)%nat; [|done].
  destruct (bs !! i) as [current|]; [|done].
  destruct (bs !! (i + 1)%nat) as [next|]; [|done].
  destruct (negb (Block.allocated current) && negb (Block.allocated next));
    apply IH; lia.
Qed.

(** Whatever the fuel, a coalescing loop that returns has coalesced the list. *)
Lemma merge_loop_result fuel bs r :
  merge_loop fuel 0 bs = Some r -> r = coalesce bs.
Proof.
  intros H.
  apply (merge_loop_mono _ (fuel + S (length bs))) in H; [|lia].
  rewrite merge_loop_total in H by lia. by simplify_eq.
Qed.

Lemma nextFit_loop_mono fuel : forall fuel' bs size c cur r,
  (fuel <= fuel')%nat ->
  nextFit_loop fuel bs size c cur = Some r ->
  nextFit_loop fuel' bs size c cur = Some r.
Proof.
  induction fuel as [|fuel IH]; intros fuel' bs size c cur r Hle; [done|].
  destruct fuel' as [|fuel']; [lia|]. simpl.
  destruct (bs !! cur) as [b|]; [|done].
  destruct (fits size b); [done|].
  destruct (_ =? c)%nat; [done|]. apply IH. lia.
Qed.

(** ** What [free] does to the block list *)

Lemma free_outcome fuel allocationId this this' r :
  free fuel allocationId this = Some (this', r) ->
  (r = false /\ this' = this /\
   Forall (fun b => strict_eq (Block.id b) allocationId = false) (blocks this)) \/
  (r = true /\
   exists pre b post,
     blocks this = pre ++ b :: post /\
     strict_eq (Block.id b) allocationId = true /\
     Forall (fun c => strict_eq (Block.id c) allocationId = false) pre /\
     blocks this' = coalesce (pre ++ mark_free b :: post) /\
     totalSize this' = totalSize this /\ nextId this' = nextId this /\
     strategy this' = strategy this /\
     lastSearchIndex this' = lastSearchIndex this /\
     allocations this' =
       match findIndex (fun a => strict_eq (Some (Allocation.id a)) allocationId)
               (allocations this) with
       | Found k => alter set_freed k (allocations this)
       | NotFound => allocations this
       end).
Proof.
  unfold free.
  destruct (findIndex _ (blocks this)) as [i|] eqn:Hfind.
  - apply findIndex_Found in Hfind as (b & Hb & Hid & Hfirst).
    destruct (lookup_split _ _ _ Hb) as (pre & post & Hbs & Hlen).
    unfold mergeAdjacentFreeBlocks. simpl.
    destruct (merge_loop fuel 0 _) as [bs'|] eqn:Hloop; [|done].
    intros [= <- <-]. right. split; [done|]. exists pre, b, post.
    apply merge_loop_result in Hloop.
    rewrite Hbs, <- Hlen, alter_middle in Hloop.
    repeat split; try done.
    apply Forall_lookup_2. intros j c Hc.
    apply (Hfirst j).
    + apply lookup_lt_Some in Hc. lia.
    + rewrite Hbs. by apply lookup_app_l_Some.
  - intros [= <- <-]. left. repeat split.
    by apply findIndex_NotFound.
Qed.

(** ** Sorting and laying out the blocks again *)

Lemma sort_insert_Permutation {A : Type} (cmp : A -> A -> Z) x l :
  sort_insert cmp x l ≡ₚ x :: l.
Proof.
  induction l as [|y l IH]; simpl; [done|].
  destruct (cmp x y <=? 0); [done|].
  rewrite IH. apply Permutation_swap.
Qed.

Lemma sort_Permutation {A : Type} (cmp : A -> A -> Z) l : sort cmp l ≡ₚ l.
Proof.
  induction l as [|x l IH]; simpl; [done|].
  rewrite sort_insert_Permutation. by constructor.
Qed.

Lemma total_Permutation l l' : l ≡ₚ l' -> total l = total l'.
Proof. induction 1; simpl; lia. Qed.

Lemma relayout_contiguous p l : contiguous_from p (relayout p l).
Proof. revert p. induction l as [|b l IH]; intros p; simpl; [done | by split]. Qed.

Lemma relayout_total p l : total (relayout p l) = total l.
Proof. revert p. induction l as [|b l IH]; intros p; simpl; [done | by rewrite IH]. Qed.

Lemma relayout_payload p l : payload <$> relayout p l = payload <$> l.
Proof.
  revert p. induction l as [|b l IH]; intros p; simpl; [done | by rewrite IH].
Qed.

Lemma relayout_owners p l : owners (relayout p l) = owners l.
Proof.
  unfold owners. revert p.
  induction l as [|b l IH]; intros p; simpl; [done | by rewrite IH].
Qed.

Lemma relayout_Forall (P : Block.t -> Prop) p l :
  (forall q b, P b -> P (move_to q b)) -> Forall P l -> Forall P (relayout p l).
Proof.
  intros Hmove H. revert p.
  induction H as [|b l Hb _ IH]; intros p; simpl; constructor; auto.
Qed.

Lemma defragment_blocks fuel this this' :
  defragment fuel this = Some this' ->
  this' = set_blocks (coalesce (relayout 0 (sort compare_blocks (blocks this)))) this.
Proof.
  unfold defragment, mergeAdjacentFreeBlocks. simpl.
  destruct (merge_loop fuel 0 _) as [bs|] eqn:Hloop; [|done].
  intros [= <-]. apply merge_loop_result in Hloop. by subst.
Qed.

(** ** The layout invariant is kept by every call *)

Lemma layout_ok_constructor n : layout_ok (constructor n).
Proof. split; simpl; [done | lia | done]. Qed.

Lemma layout_ok_reset newSize this : layout_ok (reset newSize this).
Proof. split; simpl; [done | lia | done]. Qed.

Lemma layout_ok_allocate fuel size now this this' r :
  layout_ok this -> allocate fuel size now this = Some (this', r) -> layout_ok this'.
Proof.
  intros [Hc Ht Hn] H.
  apply allocate_outcome in H as [[-> _] | (pre & b & post & Hbs & _ & _ & ->)];
    [done|].
  rewrite Hbs in *. split; simpl.
  - by apply placed_contiguous.
  - by rewrite placed_total.
  - by apply placed_no_adjacent_free.
Qed.

Lemma layout_ok_free fuel allocationId this this' r :
  layout_ok this -> free fuel allocationId this = Some (this', r) -> layout_ok this'.
Proof.
  intros [Hc Ht Hn] H.
  apply free_outcome in H
    as [(_ & -> & _) | (_ & pre & b & post & Hbs & _ & _ & Hbs' & Hts & _)]; [done|].
  rewrite Hbs in *. split; rewrite Hbs'.
  - apply coalesce_contiguous. revert Hc. by rewrite !contiguous_app.
  - rewrite coalesce_total, Hts, <- Ht. by rewrite !total_app.
  - apply coalesce_no_adjacent_free.
Qed.

Lemma layout_ok_defragment fuel this this' :
  layout_ok this -> defragment fuel this = Some this' -> layout_ok this'.
Proof.
  intros [Hc Ht Hn] H. apply defragment_blocks in H as ->. split; simpl.
  - apply coalesce_contiguous, relayout_contiguous.
  - rewrite coalesce_total, relayout_total, <- Ht.
    apply total_Permutation, sort_Permutation.
  - apply coalesce_no_adjacent_free.
Qed.

Lemma layout_ok_call fuel c this this' :
  layout_ok this -> call fuel c this = Some this' -> layout_ok this'.
Proof.
  intros Hok. destruct c as [size now|allocationId| |newSize|st|]; simpl.
  - destruct (allocate fuel size now this) as [[this'' r]|] eqn:H; [|done].
    intros [= <-]. by eapply layout_ok_allocate.
  - destruct (free fuel allocationId this) as [[this'' r]|] eqn:H; [|done].
    intros [= <-]. by eapply layout_ok_free.
  - by apply layout_ok_defragment.
  - intros [= <-]. apply layout_ok_reset.
  - intros [= <-]. by destruct Hok.
  - by intros [= <-].
Qed.

Lemma layout_ok_calls fuel cs : forall this this',
  layout_ok this -> calls fuel cs this = Some this' -> layout_ok this'.
Proof.
  induction cs as [|c cs IH]; intros this this' Hok; simpl.
  - by intros [= <-].
  - destruct (call fuel c this) as [this''|] eqn:Hcall; [|done]. simpl.
    apply IH. by eapply layout_ok_call.
Qed.

(** ** The bookkeeping invariant is kept by valid calls *)

Lemma owners_skip pre b post :
  Block.id b = None -> owners (pre ++ b :: post) = owners pre ++ owners post.
Proof. intros Hid. unfold owners. rewrite omap_app. simpl. by rewrite Hid. Qed.

Lemma books_ok_constructor n : 0 < n -> books_ok (constructor n).
Proof.
  intros Hn. split; simpl.
  - done.
  - by repeat constructor.
  - repeat constructor; [done | by intros []].
  - constructor.
  - constructor.
Qed.

Lemma books_ok_reset newSize this :
  0 < totalSize this -> valid_call (CallReset newSize) ->
  books_ok (reset newSize this).
Proof.
  intros Hpos Hvalid.
  assert (0 < totalSize (reset newSize this)) as Hpos'.
  { simpl. destruct newSize as [n|]; [|done]. simpl in Hvalid.
    destruct (Z.eqb_spec n 0); lia. }
  split; [done|simpl..].
  - by repeat constructor.
  - repeat constructor; [done | by intros []].
  - constructor.
  - constructor.
Qed.

Lemma books_ok_allocate fuel size now this this' r :
  0 < size -> books_ok this ->
  allocate fuel size now this = Some (this', r) -> books_ok this'.
Proof.
  intros Hsize [Hc Hp Ht Hd Hf] H.
  apply allocate_outcome in H as [[-> _] | (pre & b & post & Hbs & Hfit & _ & ->)];
    [done|].
  rewrite Hbs in *. apply fits_spec in Hfit as [Hfree Hle].
  apply Forall_app in Hp as [Hp1 Hp2]. apply Forall_cons in Hp2 as [Hpb Hp2].
  apply Forall_app in Ht as [Ht1 Ht2]. apply Forall_cons in Ht2 as [Htb Ht2].
  pose proof (free_block_untagged b Htb Hfree) as Hid.
  rewrite owners_skip in Hd, Hf by done.
  split; simpl; rewrite ?placed_owners by done.
  - done.
  - unfold placed. destruct (Z.eqb_spec (Block.size b) size).
    + apply Forall_app. split; [done|]. by constructor.
    + apply Forall_app. split; [done|].
      repeat constructor; simpl; [lia | lia | done].
  - unfold placed. destruct (Block.size b =? size).
    + apply Forall_app. split; [done|].
      constructor; [|done]. split; simpl; [by eauto | done].
    + apply Forall_app. split; [done|].
      constructor; [split; simpl; [by eauto | done]|].
      by constructor.
  - rewrite <- Permutation_middle. apply NoDup_cons. split; [|done].
    intros Hin. rewrite Forall_forall in Hf. specialize (Hf _ Hin). lia.
  - apply Forall_app in Hf as [Hf1 Hf2]. apply Forall_app. split; [|constructor].
    + eapply Forall_impl; [exact Hf1|]. simpl. intros; lia.
    + lia.
    + eapply Forall_impl; [exact Hf2|]. simpl. intros; lia.
Qed.

Lemma owners_mark_free pre b post :
  owners (pre ++ mark_free b :: post) `sublist_of` owners (pre ++ b :: post).
Proof.
  rewrite owners_skip by done. rewrite owners_app.
  apply sublist_app; [done|]. unfold owners. simpl.
  destruct (Block.id b); [by apply sublist_cons | done].
Qed.

Lemma books_ok_free fuel allocationId this this' r :
  books_ok this -> free fuel allocationId this = Some (this', r) -> books_ok this'.
Proof.
  intros [Hc Hp Ht Hd Hf] H.
  apply free_outcome in H
    as [(_ & -> & _) | (_ & pre & b & post & Hbs & _ & _ & Hbs' & Hts & Hn & _)];
    [done|].
  rewrite Hbs in *.
  assert (owners (blocks this') `sublist_of` owners (pre ++ b :: post)) as Hsub.
  { rewrite Hbs'. etrans; [apply coalesce_owners | apply owners_mark_free]. }
  split; rewrite ?Hn, ?Hts.
  - done.
  - rewrite Hbs'. apply coalesce_positive.
    apply Forall_app in Hp as [Hp1 Hp2]. apply Forall_cons in Hp2 as [Hpb Hp2].
    apply Forall_app. split; [done|]. by constructor.
  - rewrite Hbs'. apply coalesce_tagged.
    apply Forall_app in Ht as [Ht1 Ht2]. apply Forall_cons in Ht2 as [Htb Ht2].
    apply Forall_app. split; [done|]. constructor; [|done].
    split; simpl; [done | by intros []].
  - by eapply sublist_NoDup.
  - by eapply Forall_sublist_of.
Qed.

Lemma books_ok_defragment fuel this this' :
  books_ok this -> defragment fuel this = Some this' -> books_ok this'.
Proof.
  intros [Hc Hp Ht Hd Hf] H. apply defragment_blocks in H as ->.
  assert (owners (coalesce (relayout 0 (sort compare_blocks (blocks this))))
            `sublist_of` owners (sort compare_blocks (blocks this))) as Hsub.
  { etrans; [apply coalesce_owners|]. by rewrite relayout_owners. }
  assert (owners (sort compare_blocks (blocks this)) ≡ₚ owners (blocks this)) as Hperm.
  { unfold owners. by rewrite sort_Permutation. }
  split; simpl.
  - done.
  - apply coalesce_positive, relayout_Forall; [done|]. by rewrite sort_Permutation.
  - apply coalesce_tagged, relayout_Forall; [done|]. by rewrite sort_Permutation.
  - eapply sublist_NoDup; [|exact Hsub]. by rewrite Hperm.
  - apply (Forall_sublist_of _ _ _ Hsub). by rewrite Hperm.
Qed.

Lemma books_ok_call fuel c this this' :
  valid_call c -> books_ok this ->
  call fuel c this = Some this' -> books_ok this'.
Proof.
  intros Hvalid Hok. destruct c as [size now|allocationId| |newSize|st|]; simpl.
  - destruct (allocate fuel size now this) as [[this'' r]|] eqn:H; [|done].
    intros [= <-]. by eapply books_ok_allocate.
  - destruct (free fuel allocationId this) as [[this'' r]|] eqn:H; [|done].
    intros [= <-]. by eapply books_ok_free.
  - by apply books_ok_defragment.
  - intros [= <-]. apply books_ok_reset; [by destruct Hok | done].
  - intros [= <-]. by destruct Hok.
  - by intros [= <-].
Qed.

(** Every reachable state satisfies both invariants. *)
Lemma reachable_layout_ok this : reachable this -> layout_ok this.
Proof.
  induction 1 as [n Hn | fuel c this this' _ IH _ Hcall].
  - apply layout_ok_constructor.
  - by eapply layout_ok_call.
Qed.

Lemma reachable_books_ok this : reachable this -> books_ok this.
Proof.
  induction 1 as [n Hn | fuel c this this' _ IH Hvalid Hcall].
  - by apply books_ok_constructor.
  - by eapply books_ok_call.
Qed.

Lemma reachable_calls fuel cs : forall this this',
  reachable this -> Forall valid_call cs -> calls fuel cs this = Some this' ->
  reachable this'.
Proof.
  induction cs as [|c cs IH]; intros this this' Hreach Hvalid; simpl.
  - by intros [= <-].
  - apply Forall_cons in Hvalid as [Hc Hcs].
    destruct (call fuel c this) as [this''|] eqn:Hcall; [|done]. simpl.
    apply IH; [|done]. by eapply reachable_call.
Qed.

(** ** Termination: enough fuel for every method *)

Lemma nextFit_total fuel this size :
  (length (blocks this) < fuel)%nat -> is_Some (nextFit fuel this size).
Proof.
  intros Hfuel. unfold nextFit.
  destruct (decide (lastSearchIndex this < length (blocks this))%nat) as [Hin|Hout].
  - pose proof (nextFit_loop_scan (blocks this) size (lastSearchIndex this) fuel 0%nat)
      as H.
    rewrite Nat.add_0_r, Nat.mod_small in H by done.
    rewrite H by lia. by eexists.
  - destruct fuel as [|fuel]; [lia|]. simpl.
    rewrite lookup_ge_None_2 by lia. by eexists.
Qed.

Lemma search_total fuel this size :
  (length (blocks this) < fuel)%nat -> is_Some (search fuel this size).
Proof.
  intros Hfuel. unfold search.
  destruct (strategy this); try by eexists. by apply nextFit_total.
Qed.

Lemma allocate_total fuel size now this :
  (length (blocks this) < fuel)%nat -> is_Some (allocate fuel size now this).
Proof.
  intros Hfuel. destruct (search_total fuel this size Hfuel) as [r Hr].
  destruct r as [[i|]|].
  - destruct (allocate_Found _ size now _ _ Hr) as (? & ? & ? & _ & _ & _ & ->).
    by eexists.
  - unfold allocate. rewrite Hr. by eexists.
  - unfold allocate. rewrite Hr. by eexists.
Qed.

Lemma mergeAdjacentFreeBlocks_total fuel this :
  (length (blocks this) < fuel)%nat ->
  mergeAdjacentFreeBlocks fuel this = Some (set_blocks (coalesce (blocks this)) this).
Proof.
  intros Hfuel. unfold mergeAdjacentFreeBlocks.
  by rewrite merge_loop_total by done.
Qed.

Lemma free_total fuel allocationId this :
  (length (blocks this) < fuel)%nat -> is_Some (free fuel allocationId this).
Proof.
  intros Hfuel. unfold free.
  destruct (findIndex _ (blocks this)) as [i|]; [|by eexists].
  rewrite mergeAdjacentFreeBlocks_total; [by eexists|].
  simpl. by rewrite length_alter.
Qed.

Lemma sort_length {A : Type} (cmp : A -> A -> Z) l : length (sort cmp l) = length l.
Proof. apply Permutation_length, sort_Permutation. Qed.

Lemma relayout_length p l : length (relayout p l) = length l.
Proof. revert p. induction l as [|b l IH]; intros p; simpl; [done | by rewrite IH]. Qed.

Lemma defragment_total fuel this :
  (length (blocks this) < fuel)%nat ->
  defragment fuel this =
    Some (set_blocks (coalesce (relayout 0 (sort compare_blocks (blocks this)))) this).
Proof.
  intros Hfuel. unfold defragment.
  rewrite mergeAdjacentFreeBlocks_total; [done|].
  simpl. by rewrite relayout_length, sort_length.
Qed.

Lemma call_total fuel c this :
  (length (blocks this) < fuel)%nat -> is_Some (call fuel c this).
Proof.
  intros Hfuel. destruct c as [size now|allocationId| |newSize|st|]; simpl;
    try by eexists.
  - destruct (allocate_total fuel size now this Hfuel) as [r ->]. by eexists.
  - destruct (free_total fuel allocationId this Hfuel) as [r ->]. by eexists.
  - rewrite defragment_total by done. by eexists.
Qed.

(** A call adds at most one block. *)
Lemma absorb_length c l : (length (absorb c l) <= S (length l))%nat.
Proof.
  revert c. induction l as [|n l IH]; intros c; simpl; [done|].
  destruct (negb (Block.allocated c) && negb (Block.allocated n)).
  - specialize (IH (grow (Block.size n) c)). lia.
  - specialize (IH n). simpl. lia.
Qed.

Lemma coalesce_length bs : (length (coalesce bs) <= length bs)%nat.
Proof. destruct bs as [|b bs]; [done|]. apply absorb_length. Qed.

Lemma call_length fuel c this this' :
  call fuel c this = Some this' ->
  (length (blocks this') <= S (length (blocks this)))%nat.
Proof.
  destruct c as [size now|allocationId| |newSize|st|]; simpl.
  - destruct (allocate fuel size now this) as [[this'' r]|] eqn:H; [|done].
    intros [= <-].
    apply allocate_outcome in H as [[-> _] | (pre & b & post & Hbs & _ & _ & ->)];
      [lia|].
    rewrite Hbs. unfold placed. simpl.
    destruct (Block.size b =? size); rewrite !length_app; simpl; lia.
  - destruct (free fuel allocationId this) as [[this'' r]|] eqn:H; [|done].
    intros [= <-].
    apply free_outcome in H
      as [(_ & -> & _) | (_ & pre & b & post & Hbs & _ & _ & -> & _)]; [lia|].
    etrans; [apply coalesce_length|]. rewrite Hbs, !length_app. simpl. lia.
  - intros H. apply defragment_blocks in H as ->. simpl.
    etrans; [apply coalesce_length|]. rewrite relayout_length, sort_length. lia.
  - intros [= <-]. simpl. lia.
  - intros [= <-]. simpl. lia.
  - intros [= <-]. lia.
Qed.

Lemma calls_total fuel cs : forall this,
  (length (blocks this) + length cs < fuel)%nat -> is_Some (calls fuel cs this).
Proof.
  induction cs as [|c cs IH]; intros this Hfuel; simpl; [by eexists|].
  destruct (call_total fuel c this) as [this' Hcall]; [simpl in Hfuel; lia|].
  rewrite Hcall. simpl. apply IH.
  apply call_length in Hcall. simpl in Hfuel. lia.
Qed.

(** ** From the recursive invariants to statements about indices *)

Lemma contiguous_lookup p bs i b c :
  contiguous_from p bs -> bs !! i = Some b -> bs !! S i = Some c ->
  Block.start b + Block.size b = Block.start c.
Proof.
  revert p i. induction bs as [|a bs IH]; intros p i; [done|].
  intros [Ha Hrest] Hb Hc. destruct i as [|i]; simpl in *.
  - simplify_eq. destruct bs as [|a' bs]; simplify_eq/=. by destruct Hrest.
  - by eapply IH.
Qed.

Lemma no_adjacent_free_lookup bs i b c :
  no_adjacent_free bs -> bs !! i = Some b -> bs !! S i = Some c ->
  ~ (Block.allocated b = false /\ Block.allocated c = false).
Proof.
  revert i. induction bs as [|a bs IH]; intros i; [done|].
  intros [Ha Hrest] Hb Hc. destruct i as [|i]; simpl in *.
  - simplify_eq. destruct bs as [|a' bs]; simplify_eq/=.
    intros [Hb' Hc']. by rewrite Hb', Hc' in Ha.
  - by eapply IH.
Qed.

(** ** The shape of a defragmented block list *)

Lemma starts_bounded p bs :
  contiguous_from p bs -> Forall (fun b => 0 < Block.size b) bs ->
  Forall (fun c => p <= Block.start c) bs.
Proof.
  revert p. induction bs as [|b bs IH]; intros p; [done|].
  intros [Hb Hrest] Hpos. apply Forall_cons in Hpos as [Hpb Hpos].
  constructor; [lia|].
  eapply Forall_impl; [by apply (IH (p + Block.size b))|]. simpl. intros; lia.
Qed.

Lemma sort_insert_allocated b l :
  Block.allocated b = true -> Forall (fun c => Block.start b <= Block.start c) l ->
  sort_insert compare_blocks b l = b :: l.
Proof.
  intros Hb Hl. destruct Hl as [|c l Hc _]; [done|]. simpl.
  unfold compare_blocks. rewrite Hb. simpl.
  destruct (Block.allocated c); simpl; [|done].
  by rewrite (proj2 (Z.leb_le _ _)) by lia.
Qed.

Lemma sort_insert_free b A F :
  Block.allocated b = false ->
  Forall (fun c => Block.allocated c = true) A ->
  Forall (fun c => Block.allocated c = false) F ->
  Forall (fun c => Block.start b <= Block.start c) F ->
  sort_insert compare_blocks b (A ++ F) = A ++ b :: F.
Proof.
  intros Hb HA HF Hstart. induction HA as [|a A Ha _ IH]; simpl.
  - destruct HF as [|f F Hf _]; [done|]. simpl.
    apply Forall_cons in Hstart as [Hbf _].
    unfold compare_blocks. rewrite Hb, Hf. simpl.
    by rewrite (proj2 (Z.leb_le _ _)) by lia.
  - unfold compare_blocks at 1. rewrite Hb, Ha. simpl. by rewrite IH.
Qed.

Lemma Forall_filter_of {A : Type} (P Q : A -> Prop) `{!forall x, Decision (Q x)}
    (l : list A) :
  Forall P l -> Forall P (filter Q l).
Proof. apply Forall_sublist_of, sublist_filter. Qed.

Lemma filter_flag (P : Block.t -> Prop) `{!forall x, Decision (P x)} l :
  Forall P (filter P l).
Proof.
  apply Forall_forall. intros x Hx. by apply list_elem_of_filter in Hx as [? _].
Qed.

(** On a contiguous list the comparator's order on starts is the list order,
    so the stable sort only moves the allocated blocks in front. *)
Lemma sort_contiguous p bs :
  contiguous_from p bs -> Forall (fun b => 0 < Block.size b) bs ->
  sort compare_blocks bs = allocated_blocks bs ++ free_blocks bs.
Proof.
  revert p. induction bs as [|b bs IH]; intros p; [done|].
  intros [Hb Hrest] Hpos. pose proof Hpos as Hpos'.
  apply Forall_cons in Hpos' as [Hpb Hpbs].
  assert (Forall (fun c => Block.start b <= Block.start c) bs) as Hstart.
  { eapply Forall_impl; [by apply (starts_bounded (p + Block.size b))|].
    simpl. intros; lia. }
  change (sort compare_blocks (b :: bs))
    with (sort_insert compare_blocks b (sort compare_blocks bs)).
  rewrite (IH (p + Block.size b)) by done.
  unfold allocated_blocks, free_blocks.
  destruct (Block.allocated b) eqn:Hflag.
  - rewrite filter_cons_True, filter_cons_False by congruence.
    apply sort_insert_allocated; [done|].
    apply Forall_app. split; by apply Forall_filter_of.
  - rewrite filter_cons_False, filter_cons_True by congruence.
    apply sort_insert_free; [done | | |].
    + apply (filter_flag (fun c => Block.allocated c = true)).
    + apply (filter_flag (fun c => Block.allocated c = false)).
    + by apply Forall_filter_of.
Qed.

Lemma relayout_app p l1 l2 :
  relayout p (l1 ++ l2) = relayout p l1 ++ relayout (p + total l1) l2.
Proof.
  revert p. induction l1 as [|b l1 IH]; intros p; simpl.
  - by rewrite Z.add_0_r.
  - by rewrite IH, Z.add_assoc.
Qed.

Lemma absorb_allocated a l :
  Block.allocated a = true -> absorb a l = a :: coalesce l.
Proof. intros Ha. destruct l as [|n l]; simpl; [done | by rewrite Ha]. Qed.

Lemma coalesce_allocated_prefix A F :
  Forall (fun c => Block.allocated c = true) A ->
  coalesce (A ++ F) = A ++ coalesce F.
Proof.
  induction 1 as [|a A Ha _ IH]; [done|].
  change (coalesce ((a :: A) ++ F)) with (absorb a (A ++ F)).
  by rewrite absorb_allocated, IH.
Qed.

Lemma grow_grow x y b : grow y (grow x b) = grow (x + y) b.
Proof. unfold grow. simpl. f_equal. lia. Qed.

Lemma absorb_all_free f l :
  Block.allocated f = false -> Forall (fun c => Block.allocated c = false) l ->
  absorb f l = [grow (total l) f].
Proof.
  intros Hf Hl. revert f Hf. induction Hl as [|n l Hn _ IH]; intros f Hf; simpl.
  - destruct f. unfold grow. simpl. by rewrite Z.add_0_r.
  - rewrite Hf, Hn. simpl. rewrite IH by done. by rewrite grow_grow.
Qed.

Lemma coalesce_relayout_free p fs :
  Forall (fun c => Block.allocated c = false) fs ->
  coalesce (relayout p fs) = merged_tail p fs.
Proof.
  intros Hfs. destruct Hfs as [|f fs Hf Hfs]; [done|]. simpl.
  rewrite absorb_all_free; [by rewrite relayout_total|done|].
  by apply relayout_Forall.
Qed.

(** After [defragment]: the allocated blocks in their old order, laid out
    from [0], then one free block that holds all the free bytes. *)
Lemma defragment_shape bs :
  contiguous_from 0 bs -> Forall (fun b => 0 < Block.size b) bs ->
  coalesce (relayout 0 (sort compare_blocks bs)) =
    relayout 0 (allocated_blocks bs)
      ++ merged_tail (total (allocated_blocks bs)) (free_blocks bs).
Proof.
  intros Hc Hpos. rewrite (sort_contiguous 0) by done.
  rewrite relayout_app, coalesce_allocated_prefix.
  - by rewrite coalesce_relayout_free
      by apply (filter_flag (fun c => Block.allocated c = false)).
  - apply relayout_Forall; [done|].
    apply (filter_flag (fun c => Block.allocated c = true)).
Qed.

(** ** Statistics *)

Lemma Math_max_foldr x xs :
  0 <= x -> Math_max x xs = foldr Z.max 0 (x :: xs).
Proof.
  unfold Math_max. revert x. induction xs as [|y ys IH]; intros x Hx; simpl.
  - lia.
  - rewrite IH by lia. simpl. lia.
Qed.

Lemma total_nonneg bs : Forall (fun b => 0 < Block.size b) bs -> 0 <= total bs.
Proof. induction 1; simpl; lia. Qed.

Lemma total_positive b bs :
  Forall (fun b => 0 < Block.size b) (b :: bs) -> 0 < total (b :: bs).
Proof.
  intros H. apply Forall_cons in H as [Hb Hbs]. apply total_nonneg in Hbs.
  simpl. lia.
Qed.

(** ** The example states are reachable *)

Lemma two_holes_calls_run :
  calls 4 two_holes_calls (constructor 100) = Some two_holes.
Proof. reflexivity. Qed.

Lemma two_holes_reachable : reachable two_holes.
Proof.
  apply (reachable_calls 4 two_holes_calls (constructor 100)).
  - by apply reachable_new.
  - repeat constructor.
  - reflexivity.
Qed.

(** * The claims *)

(** C1. Starting from a fresh allocator, after any finite sequence of calls
    (allocate with a positive size) the first block starts at 0, every block
    ends where the next one starts, the sizes add up to the total size, and no
    two neighbours are both free.  Any fuel above the number of calls plus
    one lets the whole sequence run. *)
Theorem layout_invariant_preserved (capacity : Z) (cs : list Call) (fuel : nat) :
  0 < capacity -> Forall valid_call cs -> (length cs + 1 < fuel)%nat ->
  exists this,
    calls fuel cs (constructor capacity) = Some this /\
    (exists b, blocks this !! 0%nat = Some b /\ Block.start b = 0) /\
    (forall i b c, blocks this !! i = Some b -> blocks this !! S i = Some c ->
       Block.start b + Block.size b = Block.start c) /\
    total (blocks this) = totalSize this /\
    (forall i b c, blocks this !! i = Some b -> blocks this !! S i = Some c ->
       ~ (Block.allocated b = false /\ Block.allocated c = false)).
Proof.
  intros Hcap Hvalid Hfuel.
  destruct (calls_total fuel cs (constructor capacity)) as [this Hrun];
    [simpl; lia|].
  exists this. split; [done|].
  assert (reachable this) as Hreach.
  { eapply reachable_calls; [|done..]. by apply reachable_new. }
  destruct (reachable_layout_ok _ Hreach) as [Hc Ht Hn].
  destruct (reachable_books_ok _ Hreach) as [Hpos _ _ _ _].
  repeat split.
  - destruct (blocks this) as [|b bs]; simpl in *; [lia|].
    exists b. by destruct Hc.
  - intros i b c. by apply (contiguous_lookup 0).
  - done.
  - intros i b c. by apply no_adjacent_free_lookup.
Qed.

Lemma layout_invariant_preserved_witness :
  0 < 100 /\ Forall valid_call two_holes_calls /\
  exists this,
    calls 5 two_holes_calls (constructor 100) = Some this /\
    (exists b, blocks this !! 0%nat = Some b /\ Block.start b = 0) /\
    (forall i b c, blocks this !! i = Some b -> blocks this !! S i = Some c ->
       Block.start b + Block.size b = Block.start c) /\
    total (blocks this) = totalSize this /\
    (forall i b c, blocks this !! i = Some b -> blocks this !! S i = Some c ->
       ~ (Block.allocated b = false /\ Block.allocated c = false)).
Proof.
  split; [lia|]. split; [repeat constructor|].
  apply (layout_invariant_preserved 100 two_holes_calls 5);
    [lia | repeat constructor | simpl; lia].
Defined.

(** C2, at its failing input.  Under next-fit, [allocate(10)] twice and then
    [free(2)], [free(1)] leave one block and the cursor at 1, which is not
    an index of the block list; the next [allocate] reads
    [blocks[1].allocated] and throws. *)
Theorem cursor_dangles_after_free :
  Forall valid_call dangling_calls /\
  exists this,
    calls 4 dangling_calls (constructor 100) = Some this /\
    length (blocks this) = 1%nat /\
    lastSearchIndex this = 1%nat /\
    strategy this = NextFit /\
    forall fuel size now, allocate (S fuel) size now this = Some (this, TypeError).
Proof.
  split; [repeat constructor|].
  eexists. split; [reflexivity|]. repeat split.
Qed.

(** C3. Every method terminates: with more fuel than there are blocks, the
    coalescing loop, the next-fit scan and with them [allocate] (whatever the
    strategy), [free] and [defragment] complete; [getStats], [reset] and
    [setStrategy] contain no loop.  [allocate] may complete by throwing. *)
Theorem operations_terminate (this : MemoryAllocator) (fuel : nat) :
  (length (blocks this) < fuel)%nat ->
  (forall size, is_Some (nextFit fuel this size)) /\
  is_Some (mergeAdjacentFreeBlocks fuel this) /\
  (forall size now, is_Some (allocate fuel size now this)) /\
  (forall allocationId, is_Some (free fuel allocationId this)) /\
  is_Some (defragment fuel this) /\
  (forall c, is_Some (call fuel c this)).
Proof.
  intros Hfuel. repeat split.
  - intros size. by apply nextFit_total.
  - rewrite mergeAdjacentFreeBlocks_total by done. by eexists.
  - intros size now. by apply allocate_total.
  - intros allocationId. by apply free_total.
  - rewrite defragment_total by done. by eexists.
  - intros c. by apply call_total.
Qed.

Lemma operations_terminate_witness :
  (length (blocks two_holes) < 4)%nat /\
  (forall size, is_Some (nextFit 4 two_holes size)) /\
  is_Some (mergeAdjacentFreeBlocks 4 two_holes) /\
  (forall size now, is_Some (allocate 4 size now two_holes)) /\
  (forall allocationId, is_Some (free 4 allocationId two_holes)) /\
  is_Some (defragment 4 two_holes) /\
  (forall c, is_Some (call 4 c two_holes)).
Proof.
  split; [simpl; lia|]. apply (operations_terminate two_holes 4). simpl. lia.
Defined.

(** C4. When no free block is large enough, [allocate] returns [null] and
    the allocator is exactly as before; under next-fit this needs the cursor
    to be an index of the block list. *)
Theorem allocate_out_of_memory (fuel : nat) (size now : Z) (this : MemoryAllocator) :
  (strategy this = NextFit -> (lastSearchIndex this < length (blocks this))%nat) ->
  (length (blocks this) <= fuel)%nat ->
  (forall b, b ∈ blocks this -> Block.allocated b = false -> Block.size b < size) ->
  search fuel this size = Some (Normal NotFound) /\
  allocate fuel size now this = Some (this, Normal Null).
Proof.
  intros Hcursor Hfuel Hsmall.
  assert (Forall (fun b => fits size b = false) (blocks this)) as Hnone.
  { apply Forall_forall. intros b Hb. destruct (fits size b) eqn:Hfit; [|done].
    apply fits_spec in Hfit as [Hfree Hle]. specialize (Hsmall b Hb Hfree). lia. }
  assert (search fuel this size = Some (Normal NotFound)) as Hsearch.
  { unfold search. destruct (strategy this) eqn:Hst.
    - unfold firstFit. by rewrite (proj2 (findIndex_NotFound _ _) Hnone).
    - unfold bestFit. by rewrite bestFit_loop_none.
    - unfold worstFit. by rewrite worstFit_loop_none.
    - unfold nextFit. specialize (Hcursor eq_refl).
      pose proof (nextFit_loop_scan (blocks this) size (lastSearchIndex this)
                    fuel 0%nat) as H.
      rewrite Nat.add_0_r, Nat.mod_small in H by done.
      rewrite H by lia. by rewrite first_fitting_none.
    - done. }
  split; [done|]. unfold allocate. by rewrite Hsearch.
Qed.

Lemma allocate_out_of_memory_witness :
  (strategy two_holes = NextFit ->
   (lastSearchIndex two_holes < length (blocks two_holes))%nat) /\
  (length (blocks two_holes) <= 3)%nat /\
  (forall b, b ∈ blocks two_holes -> Block.allocated b = false ->
     Block.size b < 71) /\
  search 3 two_holes 71 = Some (Normal NotFound) /\
  allocate 3 71 0 two_holes = Some (two_holes, Normal Null).
Proof.
  assert (forall b, b ∈ blocks two_holes -> Block.allocated b = false ->
            Block.size b < 71) as Hsmall.
  { intros b Hb _. simpl in Hb.
    repeat (apply elem_of_cons in Hb as [-> | Hb]; [simpl; lia|]).
    by apply elem_of_nil in Hb. }
  split; [discriminate|]. split; [simpl; lia|]. split; [exact Hsmall|].
  apply (allocate_out_of_memory 3 71 0 two_holes);
    [discriminate | simpl; lia | exact Hsmall].
Defined.

(** ** Looking blocks up by id *)

Lemma strict_eq_Some o n : strict_eq o (Some n) = true <-> o = Some n.
Proof.
  destruct o as [m|]; simpl; [|done]. rewrite Z.eqb_eq.
  split; [by intros -> | by intros [= ->]].
Qed.

Lemma owners_elem n bs :
  n ∈ owners bs <-> exists b, b ∈ bs /\ Block.id b = Some n.
Proof. apply list_elem_of_omap. Qed.

Lemma not_owner n bs :
  n ∉ owners bs -> Forall (fun b => strict_eq (Block.id b) (Some n) = false) bs.
Proof.
  intros Hn. apply Forall_forall. intros b Hb.
  destruct (strict_eq (Block.id b) (Some n)) eqn:Heq; [|done].
  apply strict_eq_Some in Heq. destruct Hn. apply owners_elem. by exists b.
Qed.

Lemma free_unknown fuel allocationId this :
  Forall (fun b => strict_eq (Block.id b) allocationId = false) (blocks this) ->
  free fuel allocationId this = Some (this, false).
Proof.
  intros H. unfold free.
  by rewrite (proj2 (findIndex_NotFound _ _) H).
Qed.

(** C5. In a reachable state, [free] of an id that some block carries
    returns [true], and [free] of the same id right after returns [false]
    and changes nothing; [free] of an integer id that no block carries
    returns [false] and changes nothing. *)
Theorem free_idempotent (fuel : nat) (this : MemoryAllocator) (n : Z) :
  reachable this -> (length (blocks this) < fuel)%nat ->
  (n ∈ owners (blocks this) ->
   exists this', free fuel (Some n) this = Some (this', true) /\
                 free fuel (Some n) this' = Some (this', false)) /\
  (n ∉ owners (blocks this) -> free fuel (Some n) this = Some (this, false)).
Proof.
  intros Hreach Hfuel. split; [|by intros Hn; apply free_unknown, not_owner].
  intros Hin.
  destruct (reachable_books_ok _ Hreach) as [_ _ _ Hdistinct _].
  destruct (free_total fuel (Some n) this Hfuel) as [[this' r] Hfree].
  pose proof Hfree as Hout. apply free_outcome in Hout
    as [(_ & _ & Hnone) | (-> & pre & b & post & Hbs & Hb & _ & Hbs' & _)].
  - apply owners_elem in Hin as (b & Hb & Hid).
    rewrite Forall_forall in Hnone. specialize (Hnone b Hb).
    apply strict_eq_Some in Hid. congruence.
  - exists this'. split; [done|]. apply free_unknown, not_owner.
    apply strict_eq_Some in Hb.
    assert (owners (blocks this') `sublist_of` owners pre ++ owners post) as Hsub.
    { rewrite Hbs'. etrans; [apply coalesce_owners|]. by rewrite owners_skip. }
    intros Hn'. apply (sublist_subseteq _ _ Hsub) in Hn'.
    rewrite Hbs, owners_app in Hdistinct. unfold owners at 2 in Hdistinct.
    simpl in Hdistinct. rewrite Hb in Hdistinct.
    apply NoDup_app in Hdistinct as (_ & Hpre & Hpost).
    apply NoDup_cons in Hpost as [Hpost _].
    apply elem_of_app in Hn' as [Hn'|Hn']; [|done].
    apply (Hpre n Hn'), elem_of_cons. by left.
Qed.

Lemma free_idempotent_witness :
  reachable two_holes /\ (length (blocks two_holes) < 4)%nat /\
  (2 ∈ owners (blocks two_holes) ->
   exists this', free 4 (Some 2) two_holes = Some (this', true) /\
                 free 4 (Some 2) this' = Some (this', false)) /\
  (2 ∉ owners (blocks two_holes) -> free 4 (Some 2) two_holes = Some (two_holes, false)).
Proof.
  split; [exact two_holes_reachable|]. split; [simpl; lia|].
  apply (free_idempotent 4 two_holes 2 two_holes_reachable). simpl. lia.
Defined.

(** C6. When the search picks block [i], [allocate] succeeds with the id
    [nextId]; the picked block was free and large enough; if it is larger than
    the request, position [i] now holds a new allocated block of the requested
    size at the old start, followed by the free remainder; if it has exactly
    the requested size, it is marked allocated in place. *)
Theorem allocate_split_or_exact (fuel : nat) (size now : Z)
    (this : MemoryAllocator) (i : nat) :
  search fuel this size = Some (Normal (Found i)) ->
  exists b this',
    blocks this !! i = Some b /\ Block.allocated b = false /\
    size <= Block.size b /\
    allocate fuel size now this = Some (this', Normal (AllocationId (nextId this))) /\
    (size < Block.size b ->
     blocks this' =
       take i (blocks this)
       ++ [ {| Block.start := Block.start b; Block.size := size;
               Block.allocated := true; Block.id := Some (nextId this) |};
            {| Block.start := Block.start b + size;
               Block.size := Block.size b - size;
               Block.allocated := false; Block.id := Block.id b |} ]
       ++ drop (S i) (blocks this)) /\
    (size = Block.size b ->
     blocks this' =
       <[i := {| Block.start := Block.start b; Block.size := Block.size b;
                 Block.allocated := true; Block.id := Some (nextId this) |}]>
         (blocks this)).
Proof.
  intros Hsearch.
  destruct (allocate_Found _ size now _ _ Hsearch)
    as (pre & b & post & Hbs & Hlen & Hfit & Halloc).
  apply fits_spec in Hfit as [Hfree Hle].
  eexists b, _. split; [|split; [done|split; [done|split; [exact Halloc|]]]].
  { rewrite Hbs. by apply list_lookup_middle. }
  simpl. unfold placed. rewrite Hbs, <- Hlen. split.
  - intros Hlt. rewrite (proj2 (Z.eqb_neq _ _)) by lia.
    rewrite take_app_length.
    replace (pre ++ b :: post) with ((pre ++ [b]) ++ post) by by rewrite <- app_assoc.
    rewrite drop_app_length' by (rewrite length_app; simpl; lia).
    unfold shrink. by rewrite Hfree.
  - intros ->. rewrite Z.eqb_refl. by rewrite insert_middle.
Qed.

Lemma allocate_split_or_exact_witness :
  search 4 two_holes 30 = Some (Normal (Found 2%nat)) /\
  exists b this',
    blocks two_holes !! 2%nat = Some b /\ Block.allocated b = false /\
    30 <= Block.size b /\
    allocate 4 30 7 two_holes = Some (this', Normal (AllocationId (nextId two_holes))) /\
    (30 < Block.size b ->
     blocks this' =
       take 2 (blocks two_holes)
       ++ [ {| Block.start := Block.start b; Block.size := 30;
               Block.allocated := true; Block.id := Some (nextId two_holes) |};
            {| Block.start := Block.start b + 30;
               Block.size := Block.size b - 30;
               Block.allocated := false; Block.id := Block.id b |} ]
       ++ drop 3 (blocks two_holes)) /\
    (30 = Block.size b ->
     blocks this' =
       <[2%nat := {| Block.start := Block.start b; Block.size := Block.size b;
                 Block.allocated := true; Block.id := Some (nextId two_holes) |}]>
         (blocks two_holes)).
Proof.
  split; [reflexivity|].
  apply (allocate_split_or_exact 4 30 7 two_holes 2). reflexivity.
Defined.

(** The example of the specification: 10 bytes out of a free block of 30 at
    offset 0. *)
Example split_example :
  (fun r => blocks (fst r)) <$>
    allocate 1 10 0
      {| totalSize := 30;
         blocks := [ {| Block.start := 0; Block.size := 30;
                        Block.allocated := false; Block.id := None |} ];
         allocations := []; nextId := 1; strategy := FirstFit;
         lastSearchIndex := 0%nat |} =
  Some [ {| Block.start := 0; Block.size := 10;
            Block.allocated := true; Block.id := Some 1 |};
         {| Block.start := 10; Block.size := 20;
            Block.allocated := false; Block.id := None |} ].
Proof. reflexivity. Qed.

(** ** Filtering by the allocated flag *)

Lemma filter_all {A : Type} (P : A -> Prop) `{!forall x, Decision (P x)} (l : list A) :
  Forall P l -> filter P l = l.
Proof.
  induction 1 as [|x l Hx _ IH]; [done|]. by rewrite filter_cons_True, IH.
Qed.

Lemma filter_none {A : Type} (P : A -> Prop) `{!forall x, Decision (P x)} (l : list A) :
  Forall (fun x => ~ P x) l -> filter P l = [].
Proof.
  induction 1 as [|x l Hx _ IH]; [done|]. by rewrite filter_cons_False.
Qed.

Lemma merged_tail_free p fs :
  Forall (fun c => Block.allocated c = false) fs ->
  Forall (fun c => Block.allocated c = false) (merged_tail p fs).
Proof. intros H. destruct H as [|f fs Hf _]; by repeat constructor. Qed.

Lemma merged_tail_total p fs : total (merged_tail p fs) = total fs.
Proof. destruct fs as [|f fs]; simpl; lia. Qed.

(** C7, against the claim as stated: on [two_holes], a well-formed state
    with free blocks of 10 and 70 bytes, [defragment] leaves one free block of
    80 bytes, so the blocks' sizes, flags and ids are not the same multiset as
    before. *)
Lemma defragment_merges_free_blocks :
  layout_ok two_holes /\ books_ok two_holes /\
  exists this',
    defragment 4 two_holes = Some this' /\
    ~ (payload <$> blocks this') ≡ₚ (payload <$> blocks two_holes).
Proof.
  split; [apply reachable_layout_ok, two_holes_reachable|].
  split; [apply reachable_books_ok, two_holes_reachable|].
  eexists. split; [reflexivity|].
  intros H. apply Permutation_length in H. discriminate H.
Qed.

(** C7, amended.  On a well-formed state [defragment] returns; afterwards
    every allocated block precedes every free block, the allocated blocks are
    the same as before, in the same order and with the same sizes and ids, the
    starts are contiguous from 0, at most one free block is left (none when no
    byte was free), it holds all the bytes that were free, and the allocation
    history is unchanged. *)
Theorem defragment_compacts (fuel : nat) (this : MemoryAllocator) :
  layout_ok this -> books_ok this -> (length (blocks this) < fuel)%nat ->
  exists this',
    defragment fuel this = Some this' /\
    (forall i j a f, blocks this' !! i = Some a -> blocks this' !! j = Some f ->
       Block.allocated a = true -> Block.allocated f = false -> (i < j)%nat) /\
    payload <$> allocated_blocks (blocks this') =
      payload <$> allocated_blocks (blocks this) /\
    contiguous_from 0 (blocks this') /\
    (length (free_blocks (blocks this')) <= 1)%nat /\
    (Stats.free (getStats this) = 0 -> free_blocks (blocks this') = []) /\
    Stats.free (getStats this') = Stats.free (getStats this) /\
    allocations this' = allocations this.
Proof.
  intros [Hc _ _] [_ Hpos _ _ _] Hfuel.
  eexists. split; [by apply defragment_total|]. simpl.
  rewrite !sum_sizes_total. fold (free_blocks (blocks this)).
  rewrite defragment_shape by done.
  fold (free_blocks
    (relayout 0 (allocated_blocks (blocks this))
       ++ merged_tail (total (allocated_blocks (blocks this)))
            (free_blocks (blocks this)))).
  set (A := relayout 0 (allocated_blocks (blocks this))).
  set (T := merged_tail (total (allocated_blocks (blocks this)))
              (free_blocks (blocks this))).
  assert (Forall (fun c => Block.allocated c = true) A) as HA.
  { apply relayout_Forall; [done|].
    apply (filter_flag (fun c => Block.allocated c = true)). }
  assert (Forall (fun c => Block.allocated c = false) T) as HT.
  { apply merged_tail_free, (filter_flag (fun c => Block.allocated c = false)). }
  assert (allocated_blocks (A ++ T) = A) as Hallocated.
  { unfold allocated_blocks. rewrite filter_app, filter_all by done.
    rewrite filter_none; [by rewrite app_nil_r|].
    eapply Forall_impl; [exact HT|]. simpl. congruence. }
  assert (free_blocks (A ++ T) = T) as Hfree.
  { unfold free_blocks. rewrite filter_app, (filter_all _ T) by done.
    rewrite filter_none; [done|].
    eapply Forall_impl; [exact HA|]. simpl. congruence. }
  rewrite Hallocated, Hfree. repeat split.
  - intros i j a f Ha Hf Haa Hff.
    apply lookup_app_Some in Ha as [Ha|[_ Ha]].
    2:{ rewrite Forall_forall in HT.
        rewrite (HT a) in Haa by by eapply list_elem_of_lookup_2. done. }
    apply lookup_app_Some in Hf as [Hf|[Hj _]].
    { rewrite Forall_forall in HA.
      rewrite (HA f) in Hff by by eapply list_elem_of_lookup_2. done. }
    apply lookup_lt_Some in Ha. lia.
  - apply relayout_payload.
  - subst A T. rewrite <- (defragment_shape (blocks this)) by done.
    apply coalesce_contiguous, relayout_contiguous.
  - subst T. destruct (free_blocks (blocks this)); simpl; lia.
  - intros Hzero. subst T.
    destruct (free_blocks (blocks this)) as [|f fs] eqn:HF; [done|].
    assert (0 < total (f :: fs)); [|lia].
    apply total_positive. rewrite <- HF. by apply Forall_filter_of.
  - apply merged_tail_total.
Qed.

Lemma defragment_compacts_witness :
  layout_ok two_holes /\ books_ok two_holes /\
  (length (blocks two_holes) < 4)%nat /\
  exists this',
    defragment 4 two_holes = Some this' /\
    (forall i j a f, blocks this' !! i = Some a -> blocks this' !! j = Some f ->
       Block.allocated a = true -> Block.allocated f = false -> (i < j)%nat) /\
    payload <$> allocated_blocks (blocks this') =
      payload <$> allocated_blocks (blocks two_holes) /\
    contiguous_from 0 (blocks this') /\
    (length (free_blocks (blocks this')) <= 1)%nat /\
    (Stats.free (getStats two_holes) = 0 -> free_blocks (blocks this') = []) /\
    Stats.free (getStats this') = Stats.free (getStats two_holes) /\
    allocations this' = allocations two_holes.
Proof.
  pose proof (reachable_layout_ok _ two_holes_reachable) as Hlayout.
  pose proof (reachable_books_ok _ two_holes_reachable) as Hbooks.
  split; [exact Hlayout|]. split; [exact Hbooks|]. split; [simpl; lia|].
  apply (defragment_compacts 4 two_holes Hlayout Hbooks). simpl. lia.
Defined.

(** C8. With the cursor inside the block list, next-fit returns the first
    block that is free and large enough in the circular order that starts at
    the cursor: the cursor's own block after a single test when it fits, and
    [-1] after exactly as many tests as there are blocks when none fits. *)
Theorem nextFit_circular_scan (this : MemoryAllocator) (size : Z) :
  (lastSearchIndex this < length (blocks this))%nat ->
  (forall fuel, (length (blocks this) <= fuel)%nat ->
     nextFit fuel this size =
       Some (Normal (first_fitting size (blocks this)
               (circular_order (length (blocks this)) (lastSearchIndex this))))) /\
  (forall k b fuel,
     (k < length (blocks this))%nat -> (length (blocks this) <= fuel)%nat ->
     blocks this !! ((lastSearchIndex this + k) mod length (blocks this))%nat = Some b ->
     fits size b = true ->
     (forall j b', (j < k)%nat ->
        blocks this !! ((lastSearchIndex this + j) mod length (blocks this))%nat
          = Some b' ->
        fits size b' = false) ->
     nextFit fuel this size =
       Some (Normal (Found ((lastSearchIndex this + k) mod length (blocks this))%nat))) /\
  (forall b, blocks this !! lastSearchIndex this = Some b -> fits size b = true ->
     nextFit 1 this size = Some (Normal (Found (lastSearchIndex this)))) /\
  (Forall (fun b => fits size b = false) (blocks this) ->
     nextFit (length (blocks this)) this size = Some (Normal NotFound) /\
     nextFit (length (blocks this) - 1) this size = None).
Proof.
  intros Hcursor.
  assert (forall fuel, (length (blocks this) <= fuel)%nat ->
     nextFit fuel this size =
       Some (Normal (first_fitting size (blocks this)
               (circular_order (length (blocks this)) (lastSearchIndex this)))))
    as Hscan.
  { intros fuel Hfuel. unfold nextFit, circular_order.
    pose proof (nextFit_loop_scan (blocks this) size (lastSearchIndex this)
                  fuel 0%nat) as H.
    rewrite Nat.add_0_r, Nat.mod_small, Nat.sub_0_r in H by done.
    apply H; lia. }
  split; [exact Hscan|]. repeat split.
  - intros k b fuel Hk Hfuel Hb Hfit Hfirst. rewrite Hscan by done.
    do 2 f_equal. apply first_fitting_Found. exists k, b.
    split; [by apply circular_order_lookup|]. repeat split; [done..|].
    intros j i' b' Hj Hi' Hb'.
    rewrite circular_order_lookup in Hi' by lia. simplify_eq.
    by apply (Hfirst j).
  - intros b Hb Hfit. unfold nextFit. simpl. by rewrite Hb, Hfit.
  - rewrite Hscan by done. by rewrite first_fitting_none.
  - unfold nextFit.
    pose proof (nextFit_loop_short (blocks this) size (lastSearchIndex this)
                  (length (blocks this) - 1) 0%nat) as Hshort.
    rewrite Nat.add_0_r, Nat.mod_small in Hshort by done.
    apply Hshort; [done | lia | done].
Qed.

Lemma nextFit_circular_scan_witness :
  (lastSearchIndex two_holes < length (blocks two_holes))%nat /\
  nextFit 3 two_holes 5 = Some (Normal (Found 2%nat)) /\
  nextFit 3 two_holes 71 = Some (Normal NotFound) /\
  nextFit 2 two_holes 71 = None.
Proof.
  assert (lastSearchIndex two_holes < length (blocks two_holes))%nat as Hcursor
    by (simpl; lia).
  split; [exact Hcursor|].
  destruct (nextFit_circular_scan two_holes 5 Hcursor) as (H5 & _).
  destruct (nextFit_circular_scan two_holes 71 Hcursor) as (_ & _ & _ & H71).
  split; [|apply H71; by repeat constructor].
  rewrite H5 by (simpl; lia). reflexivity.
Defined.

(** C9. When all sizes are positive, the fragmentation reported by
    [getStats] is 0 if no byte is free, and otherwise the free bytes outside
    the largest free block, divided by the free bytes, times 100 (as an exact
    rational number). *)
Theorem fragmentation_formula (this : MemoryAllocator) :
  Forall (fun b => 0 < Block.size b) (blocks this) ->
  Stats.free (getStats this) = total (free_blocks (blocks this)) /\
  Stats.fragmentation (getStats this) =
    if Stats.free (getStats this) =? 0 then 0%Q
    else (inject_Z (Stats.free (getStats this) - largest_free_block (blocks this))
          / inject_Z (Stats.free (getStats this)) * inject_Z 100)%Q.
Proof.
  intros Hpos. simpl. rewrite !sum_sizes_total.
  fold (free_blocks (blocks this)). split; [done|].
  unfold largest_free_block.
  assert (Forall (fun b => 0 < Block.size b) (free_blocks (blocks this))) as Hfree
    by by apply Forall_filter_of.
  destruct (free_blocks (blocks this)) as [|f fs]; [done|].
  pose proof (total_positive _ _ Hfree) as Htotal.
  rewrite (proj2 (Z.gtb_gt _ _)) by lia.
  rewrite (proj2 (Z.eqb_neq _ _)) by lia.
  change (Block.size <$> f :: fs) with (Block.size f :: (Block.size <$> fs)).
  rewrite <- (Math_max_foldr (Block.size f) (Block.size <$> fs)); [done|].
  apply Forall_cons in Hfree as [Hf _]. lia.
Qed.

Lemma fragmentation_formula_witness :
  Forall (fun b => 0 < Block.size b) (blocks holes_10_20) /\
  Stats.free (getStats holes_10_20) = 30 /\
  (Stats.fragmentation (getStats holes_10_20) == 100 # 3)%Q.
Proof.
  assert (Forall (fun b => 0 < Block.size b) (blocks holes_10_20)) as Hpos
    by (repeat constructor).
  split; [exact Hpos|].
  destruct (fragmentation_formula holes_10_20 Hpos) as [Hfree Hfrag].
  split; [by rewrite Hfree|].
  rewrite Hfrag. reflexivity.
Defined.

(** The examples of the specification: 33.33 % (to two decimals) for free
    blocks of 10 and 20 bytes, 0 % for a single free block of 30 bytes. *)
Example fragmentation_examples :
  (3333 # 100 <= Stats.fragmentation (getStats holes_10_20))%Q /\
  (Stats.fragmentation (getStats holes_10_20) < 3334 # 100)%Q /\
  (Stats.fragmentation (getStats hole_30) == 0)%Q.
Proof. repeat split; by vm_compute. Qed.

(** C10. In a reachable state with at least one free block, [free(null)]
    returns [true]: the first block whose id is [null] is a free block, and the
    lookup does not look at the allocated flag.  Nothing is changed by the
    call. *)
Theorem free_null_returns_true (fuel : nat) (this : MemoryAllocator) :
  reachable this -> (length (blocks this) < fuel)%nat ->
  (exists b, b ∈ blocks this /\ Block.allocated b = false) ->
  free fuel None this = Some (this, true).
Proof.
  intros Hreach Hfuel (b & Hb & Hfree).
  destruct (reachable_books_ok _ Hreach) as [_ _ Htagged _ _].
  destruct (reachable_layout_ok _ Hreach) as [_ _ Hcoalesced].
  destruct (free_total fuel None this Hfuel) as [[this' r] Hcall].
  rewrite Hcall. pose proof Hcall as Hout. apply free_outcome in Hout
    as [(_ & _ & Hnone)
       | (-> & pre & c & post & Hbs & Hc & _ & Hbs' & Hts & Hn & Hst & Hlast & Hal)].
  - rewrite Forall_forall in Htagged, Hnone.
    specialize (Hnone b Hb).
    by rewrite (free_block_untagged b (Htagged b Hb) Hfree) in Hnone.
  - assert (mark_free c = c) as Hsame.
    { assert (tagged c) as [Htc _].
      { rewrite Forall_forall in Htagged. apply Htagged. rewrite Hbs.
        apply elem_of_app. right. by left. }
      destruct c as [s z [|] [n|]]; simpl in *; try done.
      by destruct Htc as [n H]. }
    rewrite Hsame, <- Hbs, coalesce_fixed in Hbs' by done.
    rewrite (proj2 (findIndex_NotFound _ _)) in Hal
      by (apply Forall_forall; done).
    destruct this, this'; simpl in *. by subst.
Qed.

Lemma free_null_returns_true_witness :
  reachable two_holes /\ (length (blocks two_holes) < 4)%nat /\
  (exists b, b ∈ blocks two_holes /\ Block.allocated b = false) /\
  free 4 None two_holes = Some (two_holes, true).
Proof.
  assert (exists b, b ∈ blocks two_holes /\ Block.allocated b = false) as Hfree.
  { eexists. split; [by left | done]. }
  split; [exact two_holes_reachable|]. split; [simpl; lia|]. split; [exact Hfree|].
  apply (free_null_returns_true 4 two_holes two_holes_reachable);
    [simpl; lia | exact Hfree].
Defined.

(** * Further properties of the allocator *)

(** ** Byte accounting *)

Lemma total_split bs : total bs = total (allocated_blocks bs) + total (free_blocks bs).
Proof.
  unfold allocated_blocks, free_blocks.
  induction bs as [|b bs IH]; [done|].
  destruct (Block.allocated b) eqn:Hflag.
  - rewrite filter_cons_True, filter_cons_False by congruence. simpl. lia.
  - rewrite filter_cons_False, filter_cons_True by congruence. simpl. lia.
Qed.

Lemma stats_allocated this :
  Stats.allocated (getStats this) = total (allocated_blocks (blocks this)).
Proof. simpl. by rewrite sum_sizes_total. Qed.

Lemma stats_free this :
  Stats.free (getStats this) = total (free_blocks (blocks this)).
Proof. simpl. by rewrite sum_sizes_total. Qed.

(** X1. In every reachable state the statistics add up: allocated bytes plus
    free bytes are the total size, and neither is negative. *)
Theorem stats_conservation (this : MemoryAllocator) :
  reachable this ->
  Stats.allocated (getStats this) + Stats.free (getStats this)
    = Stats.totalSize (getStats this) /\
  0 <= Stats.allocated (getStats this) <= Stats.totalSize (getStats this) /\
  0 <= Stats.free (getStats this) <= Stats.totalSize (getStats this).
Proof.
  intros Hreach.
  destruct (reachable_layout_ok _ Hreach) as [_ Htotal _].
  destruct (reachable_books_ok _ Hreach) as [_ Hpos _ _ _].
  rewrite stats_allocated, stats_free.
  change (Stats.totalSize (getStats this)) with (totalSize this).
  rewrite <- Htotal, (total_split (blocks this)).
  assert (0 <= total (allocated_blocks (blocks this)))
    by by apply total_nonneg, Forall_filter_of.
  assert (0 <= total (free_blocks (blocks this)))
    by by apply total_nonneg, Forall_filter_of.
  lia.
Qed.

Lemma stats_conservation_witness :
  reachable two_holes /\
  Stats.allocated (getStats two_holes) + Stats.free (getStats two_holes)
    = Stats.totalSize (getStats two_holes) /\
  0 <= Stats.allocated (getStats two_holes) <= Stats.totalSize (getStats two_holes) /\
  0 <= Stats.free (getStats two_holes) <= Stats.totalSize (getStats two_holes).
Proof.
  split; [exact two_holes_reachable|].
  apply (stats_conservation two_holes two_holes_reachable).
Defined.

(** ** The placement strategies *)

(** X2. First-fit returns the lowest index of a block that is free and large
    enough, and [-1] exactly when there is no such block. *)
Theorem firstFit_lowest_index (this : MemoryAllocator) (size : Z) :
  match firstFit this size with
  | Found i =>
      exists b, blocks this !! i = Some b /\ fits size b = true /\
        forall j c, (j < i)%nat -> blocks this !! j = Some c -> fits size c = false
  | NotFound => Forall (fun b => fits size b = false) (blocks this)
  end.
Proof.
  unfold firstFit. destruct (findIndex _ _) as [i|] eqn:H.
  - by apply findIndex_Found in H.
  - by apply findIndex_NotFound in H.
Qed.

Lemma lookup_snoc_Some {A : Type} (l : list A) (x y : A) (j : nat) :
  (l ++ [x]) !! j = Some y ->
  l !! j = Some y \/ (j = length l /\ y = x).
Proof.
  intros H. apply lookup_app_Some in H as [H | [Hj H]]; [by left|].
  right. destruct (j - length l)%nat as [|k] eqn:Hk; simpl in H; [|done].
  simplify_eq. split; [lia | done].
Qed.

Lemma bestFit_loop_best size rest : forall seen idx bound,
  best_so_far size seen idx bound ->
  exists bound',
    best_so_far size (seen ++ rest)
      (bestFit_loop size rest (length seen) idx bound) bound'.
Proof.
  induction rest as [|block rest IH]; intros seen idx bound Hinv; simpl.
  - rewrite app_nil_r. by exists bound.
  - replace (seen ++ block :: rest) with ((seen ++ [block]) ++ rest)
      by by rewrite <- app_assoc.
    replace (S (length seen)) with (length (seen ++ [block]))
      by (rewrite length_app; simpl; lia).
    destruct (fits size block) eqn:Hfit; simpl.
    + destruct (below (Block.size block) bound) eqn:Hbelow; apply IH.
      * exists block. split; [by apply list_lookup_middle|].
        split; [done|]. split; [done|].
        intros j c Hc Hfc. apply lookup_snoc_Some in Hc as [Hc | [-> ->]].
        -- destruct idx as [k|]; simpl in Hinv.
           ++ destruct Hinv as (b & _ & _ & -> & Hmin). simpl in Hbelow.
              destruct (Hmin j c Hc Hfc) as [Hle _].
              apply Z.ltb_lt in Hbelow. lia.
           ++ destruct Hinv as [_ Hnone]. rewrite Forall_forall in Hnone.
              rewrite (Hnone c) in Hfc by by eapply list_elem_of_lookup_2. done.
        -- split; lia.
      * destruct idx as [k|]; simpl in Hinv.
        -- destruct Hinv as (b & Hb & Hfb & -> & Hmin). simpl in Hbelow.
           apply Z.ltb_ge in Hbelow.
           exists b. split; [by apply lookup_app_l_Some|]. split; [done|]. split; [done|].
           intros j c Hc Hfc. apply lookup_snoc_Some in Hc as [Hc | [-> ->]].
           ++ by apply Hmin.
           ++ split; [done|]. apply lookup_lt_Some in Hb. lia.
        -- destruct Hinv as [-> _]. done.
    + apply IH. destruct idx as [k|]; simpl in Hinv |- *.
      * destruct Hinv as (b & Hb & Hfb & -> & Hmin).
        exists b. split; [by apply lookup_app_l_Some|]. split; [done|]. split; [done|].
        intros j c Hc Hfc. apply lookup_snoc_Some in Hc as [Hc | [-> ->]].
        -- by apply Hmin.
        -- congruence.
      * destruct Hinv as [-> Hnone]. split; [done|].
        apply Forall_app. split; [done|]. by repeat constructor.
Qed.

(** X3. Best-fit returns a free block that is large enough and of the
    smallest size among those; among several of that size, the one of lowest
    index.  It returns [-1] exactly when no block is free and large enough. *)
Theorem bestFit_smallest (this : MemoryAllocator) (size : Z) :
  match bestFit this size with
  | Found i =>
      exists b, blocks this !! i = Some b /\ fits size b = true /\
        forall j c, blocks this !! j = Some c -> fits size c = true ->
          Block.size b <= Block.size c /\
          ((j < i)%nat -> Block.size b < Block.size c)
  | NotFound => Forall (fun b => fits size b = false) (blocks this)
  end.
Proof.
  unfold bestFit.
  destruct (bestFit_loop_best size (blocks this) [] NotFound None)
    as [bound' H]; [by split|].
  simpl in H. destruct (bestFit_loop _ _ _ _ _) as [i|]; simpl in H.
  - destruct H as (b & ? & ? & _ & ?). by exists b.
  - by destruct H.
Qed.

Lemma worstFit_loop_worst size rest : forall seen idx bound,
  0 <= size ->
  worst_so_far size seen idx bound ->
  exists bound',
    worst_so_far size (seen ++ rest)
      (worstFit_loop size rest (length seen) idx bound) bound'.
Proof.
  induction rest as [|block rest IH]; intros seen idx bound Hsize Hinv; simpl.
  - rewrite app_nil_r. by exists bound.
  - replace (seen ++ block :: rest) with ((seen ++ [block]) ++ rest)
      by by rewrite <- app_assoc.
    replace (S (length seen)) with (length (seen ++ [block]))
      by (rewrite length_app; simpl; lia).
    destruct (fits size block) eqn:Hfit; simpl.
    + destruct (Block.size block >? bound) eqn:Habove; (apply IH; [done|]).
      * apply Z.gtb_gt in Habove.
        exists block. split; [by apply list_lookup_middle|].
        split; [done|]. split; [done|].
        intros j c Hc Hfc. apply lookup_snoc_Some in Hc as [Hc | [-> ->]].
        -- destruct idx as [k|]; simpl in Hinv.
           ++ destruct Hinv as (b & _ & _ & -> & Hmax).
              destruct (Hmax j c Hc Hfc) as [Hle _]. lia.
           ++ destruct Hinv as [_ Hnone]. rewrite Forall_forall in Hnone.
              rewrite (Hnone c) in Hfc by by eapply list_elem_of_lookup_2. done.
        -- split; lia.
      * assert (Block.size block <= bound) as Hle.
        { destruct (Z.gtb_spec (Block.size block) bound); [done | lia]. }
        destruct idx as [k|]; simpl in Hinv.
        -- destruct Hinv as (b & Hb & Hfb & -> & Hmax).
           exists b. split; [by apply lookup_app_l_Some|]. split; [done|]. split; [done|].
           intros j c Hc Hfc. apply lookup_snoc_Some in Hc as [Hc | [-> ->]].
           ++ by apply Hmax.
           ++ split; [done|]. apply lookup_lt_Some in Hb. lia.
        -- destruct Hinv as [-> _]. apply fits_spec in Hfit as [_ Hfit]. lia.
    + apply IH; [done|]. destruct idx as [k|]; simpl in Hinv |- *.
      * destruct Hinv as (b & Hb & Hfb & -> & Hmax).
        exists b. split; [by apply lookup_app_l_Some|]. split; [done|]. split; [done|].
        intros j c Hc Hfc. apply lookup_snoc_Some in Hc as [Hc | [-> ->]].
        -- by apply Hmax.
        -- congruence.
      * destruct Hinv as [-> Hnone]. split; [done|].
        apply Forall_app. split; [done|]. by repeat constructor.
Qed.

(** X4. For a request that is not negative, worst-fit returns a free block
    that is large enough and of the largest size; among several of that size,
    the one of lowest index.  It returns [-1] exactly when no block is free
    and large enough. *)
Theorem worstFit_largest (this : MemoryAllocator) (size : Z) :
  0 <= size ->
  match worstFit this size with
  | Found i =>
      exists b, blocks this !! i = Some b /\ fits size b = true /\
        forall j c, blocks this !! j = Some c -> fits size c = true ->
          Block.size c <= Block.size b /\
          ((j < i)%nat -> Block.size c < Block.size b)
  | NotFound => Forall (fun b => fits size b = false) (blocks this)
  end.
Proof.
  intros Hsize. unfold worstFit.
  destruct (worstFit_loop_worst size (blocks this) [] NotFound (-1) Hsize)
    as [bound' H]; [by split|].
  simpl in H. destruct (worstFit_loop _ _ _ _ _) as [i|]; simpl in H.
  - destruct H as (b & ? & ? & _ & ?). by exists b.
  - by destruct H.
Qed.

Lemma worstFit_largest_witness :
  0 <= 5 /\ worstFit two_holes 5 = Found 2%nat /\
  match worstFit two_holes 5 with
  | Found i =>
      exists b, blocks two_holes !! i = Some b /\ fits 5 b = true /\
        forall j c, blocks two_holes !! j = Some c -> fits 5 c = true ->
          Block.size c <= Block.size b /\
          ((j < i)%nat -> Block.size c < Block.size b)
  | NotFound => Forall (fun b => fits 5 b = false) (blocks two_holes)
  end.
Proof.
  split; [lia|]. split; [reflexivity|].
  apply (worstFit_largest two_holes 5). lia.
Defined.

(** ** When [allocate] succeeds, fails and throws *)

Lemma first_fitting_NotFound size bs order :
  first_fitting size bs order = NotFound ->
  forall i b, i ∈ order -> bs !! i = Some b -> fits size b = false.
Proof.
  induction order as [|a order IH]; simpl; intros H i b Hi Hb.
  - by apply elem_of_nil in Hi.
  - destruct (bs !! a) as [c|] eqn:Hc.
    + destruct (fits size c) eqn:Hfit; [done|].
      apply elem_of_cons in Hi as [-> | Hi]; [congruence | by eapply IH].
    + apply elem_of_cons in Hi as [-> | Hi]; [congruence | by eapply IH].
Qed.

Lemma circular_order_covers (n c i : nat) :
  (c < n)%nat -> (i < n)%nat -> i ∈ circular_order n c.
Proof.
  intros Hc Hi. unfold circular_order. apply list_elem_of_fmap.
  destruct (decide (c <= i)%nat) as [Hle|Hgt].
  - exists (i - c)%nat. split.
    + rewrite Nat.mod_small by lia. lia.
    + apply elem_of_seq. lia.
  - exists (i + n - c)%nat. split.
    + replace (c + (i + n - c))%nat with (i + 1 * n)%nat by lia.
      rewrite Nat.Div0.mod_add. by rewrite Nat.mod_small.
    + apply elem_of_seq. lia.
Qed.

Lemma nextFit_in_range fuel this size :
  (lastSearchIndex this < length (blocks this))%nat ->
  (length (blocks this) <= fuel)%nat ->
  nextFit fuel this size =
    Some (Normal (first_fitting size (blocks this)
            (circular_order (length (blocks this)) (lastSearchIndex this)))).
Proof.
  intros Hcursor Hfuel. unfold nextFit, circular_order.
  pose proof (nextFit_loop_scan (blocks this) size (lastSearchIndex this)
                fuel 0%nat) as H.
  rewrite Nat.add_0_r, Nat.mod_small, Nat.sub_0_r in H by done.
  apply H; lia.
Qed.

Lemma bestFit_NotFound this size :
  bestFit this size = NotFound ->
  Forall (fun b => fits size b = false) (blocks this).
Proof.
  unfold bestFit. intros H.
  destruct (bestFit_loop_best size (blocks this) [] NotFound None)
    as [bound' Hinv]; [by split|].
  simpl in Hinv. rewrite H in Hinv. by destruct Hinv.
Qed.

Lemma worstFit_NotFound this size :
  0 <= size -> worstFit this size = NotFound ->
  Forall (fun b => fits size b = false) (blocks this).
Proof.
  unfold worstFit. intros Hsize H.
  destruct (worstFit_loop_worst size (blocks this) [] NotFound (-1) Hsize)
    as [bound' Hinv]; [by split|].
  simpl in Hinv. rewrite H in Hinv. by destruct Hinv.
Qed.

(** A search that ran to its end without finding a block has seen that no
    block fits. *)
Lemma search_answer fuel this size :
  0 <= size -> strategy this <> OtherStrategy ->
  (strategy this = NextFit -> (lastSearchIndex this < length (blocks this))%nat) ->
  (length (blocks this) <= fuel)%nat ->
  exists r, search fuel this size = Some (Normal r) /\
    (r = NotFound -> Forall (fun b => fits size b = false) (blocks this)).
Proof.
  intros Hsize Hknown Hcursor Hfuel. unfold search.
  destruct (strategy this) eqn:Hst.
  - eexists. split; [done|]. intros H. by apply findIndex_NotFound.
  - eexists. split; [done|]. apply bestFit_NotFound.
  - eexists. split; [done|]. by apply worstFit_NotFound.
  - rewrite nextFit_in_range by auto. eexists. split; [done|]. intros H.
    apply Forall_lookup_2. intros i b Hb.
    apply (first_fitting_NotFound _ _ _ H i b); [|done].
    apply circular_order_covers; [auto|]. by eapply lookup_lt_Some.
  - done.
Qed.

Lemma allocate_finds fuel size now this b :
  0 <= size -> strategy this <> OtherStrategy ->
  (strategy this = NextFit -> (lastSearchIndex this < length (blocks this))%nat) ->
  (length (blocks this) <= fuel)%nat ->
  b ∈ blocks this -> fits size b = true ->
  exists this',
    allocate fuel size now this = Some (this', Normal (AllocationId (nextId this))).
Proof.
  intros Hsize Hst Hcursor Hfuel Hb Hfit.
  destruct (search_answer fuel this size Hsize Hst Hcursor Hfuel)
    as (r & Hr & Hnone).
  destruct r as [i|].
  - destruct (allocate_Found _ size now _ _ Hr) as (? & ? & ? & _ & _ & _ & ->).
    by eexists.
  - specialize (Hnone eq_refl). rewrite Forall_forall in Hnone.
    specialize (Hnone b Hb). congruence.
Qed.

(** X5. Under each of the four strategies (with the next-fit cursor inside
    the block list) an [allocate] of a non-negative size succeeds, returning
    [nextId], exactly when some free block is large enough: the strategy
    decides where a request is placed, never whether it is. *)
Theorem allocate_succeeds_iff (fuel : nat) (size now : Z) (this : MemoryAllocator) :
  0 <= size -> strategy this <> OtherStrategy ->
  (strategy this = NextFit -> (lastSearchIndex this < length (blocks this))%nat) ->
  (length (blocks this) <= fuel)%nat ->
  (exists b, b ∈ blocks this /\ Block.allocated b = false /\ size <= Block.size b) <->
  (exists this',
     allocate fuel size now this = Some (this', Normal (AllocationId (nextId this)))).
Proof.
  intros Hsize Hst Hcursor Hfuel. split.
  - intros (b & Hb & Hfree & Hle).
    apply (allocate_finds fuel size now this b); try done. by apply fits_spec.
  - intros (this' & H).
    apply allocate_outcome in H
      as [(_ & [|]) | (pre & b & post & Hbs & Hfit & _)]; [done..|].
    apply fits_spec in Hfit as [Hfree Hle]. exists b.
    split; [|done]. rewrite Hbs. apply elem_of_app. right. by left.
Qed.

Lemma allocate_succeeds_iff_witness :
  0 <= 30 /\ strategy two_holes <> OtherStrategy /\
  (length (blocks two_holes) <= 3)%nat /\
  ((exists b, b ∈ blocks two_holes /\ Block.allocated b = false /\
              30 <= Block.size b) <->
   (exists this',
      allocate 3 30 0 two_holes =
        Some (this', Normal (AllocationId (nextId two_holes))))) /\
  (exists this',
      allocate 3 30 0 two_holes =
        Some (this', Normal (AllocationId (nextId two_holes)))).
Proof.
  split; [lia|]. split; [discriminate|]. split; [simpl; lia|].
  split; [|by eexists].
  apply (allocate_succeeds_iff 3 30 0 two_holes);
    [lia | discriminate | discriminate | simpl; lia].
Defined.

Lemma allocate_TypeError_inv fuel size now this this' :
  allocate fuel size now this = Some (this', TypeError) ->
  strategy this = NextFit /\ (length (blocks this) <= lastSearchIndex this)%nat.
Proof.
  intros H.
  destruct (search fuel this size) as [[[i|]|]|] eqn:Hsearch.
  - destruct (allocate_Found _ size now _ _ Hsearch)
      as (? & ? & ? & _ & _ & _ & Heq). congruence.
  - unfold allocate in H. rewrite Hsearch in H. simplify_eq/=.
  - unfold search in Hsearch.
    destruct (strategy this); try done. split; [done|].
    destruct (decide (lastSearchIndex this < length (blocks this))%nat)
      as [Hin|Hout]; [|lia].
    unfold nextFit in Hsearch.
    apply (nextFit_loop_mono _ (fuel + length (blocks this))) in Hsearch; [|lia].
    fold (nextFit (fuel + length (blocks this)) this size) in Hsearch.
    rewrite nextFit_in_range in Hsearch by (done || lia). done.
  - unfold allocate in H. rewrite Hsearch in H. done.
Qed.

(** X6. [allocate] throws exactly when the strategy is next-fit and the
    cursor is not an index of the block list; the allocator is then as it was
    before the call.  Under first-fit, best-fit and worst-fit it never
    throws. *)
Theorem allocate_throws_iff (fuel : nat) (size now : Z) (this : MemoryAllocator) :
  (0 < fuel)%nat ->
  ((exists this', allocate fuel size now this = Some (this', TypeError)) <->
   strategy this = NextFit /\ (length (blocks this) <= lastSearchIndex this)%nat) /\
  (forall this', allocate fuel size now this = Some (this', TypeError) -> this' = this).
Proof.
  intros Hfuel. split; [split|].
  - intros (this' & H). by eapply allocate_TypeError_inv.
  - intros [Hst Hout]. exists this.
    destruct fuel as [|fuel]; [lia|].
    unfold allocate, search, nextFit. rewrite Hst. simpl.
    by rewrite lookup_ge_None_2 by lia.
  - intros this' H.
    by apply allocate_outcome in H as [[-> _] | (? & ? & ? & _ & _ & ? & _)].
Qed.

Lemma allocate_throws_iff_witness :
  (0 < 1)%nat /\
  allocate 1 10 0 stale_cursor = Some (stale_cursor, TypeError) /\
  ((exists this', allocate 1 10 0 stale_cursor = Some (this', TypeError)) <->
   strategy stale_cursor = NextFit /\
   (length (blocks stale_cursor) <= lastSearchIndex stale_cursor)%nat) /\
  (forall this', allocate 1 10 0 stale_cursor = Some (this', TypeError) ->
     this' = stale_cursor).
Proof.
  split; [lia|]. split; [reflexivity|].
  apply (allocate_throws_iff 1 10 0 stale_cursor). lia.
Defined.

Lemma stale_cursor_reachable : reachable stale_cursor.
Proof.
  apply (reachable_calls 4 dangling_calls (constructor 100)).
  - by apply reachable_new.
  - repeat constructor.
  - reflexivity.
Qed.

(** X7. Right after a successful [allocate] the cursor is an index of the
    block list, and the block there is the new allocation: it carries the
    returned id, has the requested size and starts where the chosen free block
    started. *)
Theorem cursor_after_allocate (fuel : nat) (size now : Z)
    (this this' : MemoryAllocator) (n : Z) :
  allocate fuel size now this = Some (this', Normal (AllocationId n)) ->
  exists b,
    blocks this !! lastSearchIndex this' = Some b /\
    Block.allocated b = false /\
    blocks this' !! lastSearchIndex this' =
      Some {| Block.start := Block.start b; Block.size := size;
              Block.allocated := true; Block.id := Some n |}.
Proof.
  intros H.
  apply allocate_outcome in H
    as [(_ & [|]) | (pre & b & post & Hbs & Hfit & Hr & ->)]; [done..|].
  simplify_eq. apply fits_spec in Hfit as [Hfree _]. exists b. simpl.
  split; [rewrite Hbs; by apply list_lookup_middle|]. split; [done|].
  unfold placed. destruct (Z.eqb_spec (Block.size b) size) as [<-|Hne].
  - by rewrite list_lookup_middle.
  - by rewrite list_lookup_middle.
Qed.

Lemma cursor_after_allocate_witness :
  exists this',
    allocate 3 30 0 two_holes = Some (this', Normal (AllocationId 3)) /\
    exists b,
      blocks two_holes !! lastSearchIndex this' = Some b /\
      Block.allocated b = false /\
      blocks this' !! lastSearchIndex this' =
        Some {| Block.start := Block.start b; Block.size := 30;
                Block.allocated := true; Block.id := Some 3 |}.
Proof.
  eexists. split; [reflexivity|].
  apply (cursor_after_allocate 3 30 0 two_holes _ 3). reflexivity.
Defined.

(** ** Coalescing and compaction *)

Lemma absorb_allocated_blocks c l :
  allocated_blocks (absorb c l) = allocated_blocks (c :: l).
Proof.
  unfold allocated_blocks. revert c.
  induction l as [|n l IH]; intros c; [done|]. simpl.
  destruct (Block.allocated c) eqn:Hc; simpl.
  - rewrite !filter_cons_True by done. by rewrite IH.
  - destruct (Block.allocated n) eqn:Hn; simpl.
    + rewrite filter_cons_False by congruence. rewrite IH.
      by rewrite (filter_cons_False _ c) by congruence.
    + rewrite IH. rewrite !filter_cons_False by (simpl; congruence). done.
Qed.

Lemma coalesce_allocated_blocks bs :
  allocated_blocks (coalesce bs) = allocated_blocks bs.
Proof. destruct bs as [|b bs]; [done|]. apply absorb_allocated_blocks. Qed.

Lemma set_blocks_same this : set_blocks (blocks this) this = this.
Proof. by destruct this. Qed.

(** X8. On any block list, well-formed or not, [mergeAdjacentFreeBlocks]
    leaves no two free neighbours, keeps the sum of the sizes, the contiguity
    and every allocated block as it is, does nothing when run again, and does
    nothing at all on a list without free neighbours. *)
Theorem merge_coalesces (fuel : nat) (this : MemoryAllocator) :
  (length (blocks this) < fuel)%nat ->
  exists this',
    mergeAdjacentFreeBlocks fuel this = Some this' /\
    no_adjacent_free (blocks this') /\
    total (blocks this') = total (blocks this) /\
    allocated_blocks (blocks this') = allocated_blocks (blocks this) /\
    (forall p, contiguous_from p (blocks this) -> contiguous_from p (blocks this')) /\
    mergeAdjacentFreeBlocks fuel this' = Some this' /\
    (no_adjacent_free (blocks this) -> this' = this).
Proof.
  intros Hfuel. eexists. split; [by apply mergeAdjacentFreeBlocks_total|].
  simpl. split; [apply coalesce_no_adjacent_free|].
  split; [apply coalesce_total|].
  split; [apply coalesce_allocated_blocks|].
  split; [intros p; apply coalesce_contiguous|]. split.
  - rewrite mergeAdjacentFreeBlocks_total.
    + simpl. unfold set_blocks. simpl.
      by rewrite (coalesce_fixed (coalesce _)) by apply coalesce_no_adjacent_free.
    + simpl. pose proof (coalesce_length (blocks this)). lia.
  - intros Hnaf. rewrite coalesce_fixed by done. apply set_blocks_same.
Qed.

Lemma merge_coalesces_witness :
  (length (blocks two_holes) < 4)%nat /\
  exists this',
    mergeAdjacentFreeBlocks 4 two_holes = Some this' /\
    no_adjacent_free (blocks this') /\
    total (blocks this') = total (blocks two_holes) /\
    allocated_blocks (blocks this') = allocated_blocks (blocks two_holes) /\
    (forall p, contiguous_from p (blocks two_holes) ->
       contiguous_from p (blocks this')) /\
    mergeAdjacentFreeBlocks 4 this' = Some this' /\
    (no_adjacent_free (blocks two_holes) -> this' = two_holes).
Proof.
  split; [simpl; lia|]. apply (merge_coalesces 4 two_holes). simpl. lia.
Defined.

Lemma flags_apart A T :
  Forall (fun c => Block.allocated c = true) A ->
  Forall (fun c => Block.allocated c = false) T ->
  allocated_blocks (A ++ T) = A /\ free_blocks (A ++ T) = T.
Proof.
  intros HA HT. unfold allocated_blocks, free_blocks. split.
  - rewrite filter_app, filter_all by done.
    rewrite filter_none; [by rewrite app_nil_r|].
    eapply Forall_impl; [exact HT|]. simpl. congruence.
  - rewrite filter_app, (filter_all _ T) by done.
    rewrite filter_none; [done|].
    eapply Forall_impl; [exact HA|]. simpl. congruence.
Qed.

Lemma relayout_relayout p l : relayout p (relayout p l) = relayout p l.
Proof.
  revert p. induction l as [|b l IH]; intros p; simpl; [done|]. by rewrite IH.
Qed.

Lemma merged_tail_merged_tail p fs :
  merged_tail p (merged_tail p fs) = merged_tail p fs.
Proof. destruct fs as [|f fs]; [done|]. simpl. by rewrite Z.add_0_r. Qed.

(** X9. [defragment] is idempotent on well-formed states: a second call
    right after the first changes nothing. *)
Theorem defragment_idempotent (fuel : nat) (this : MemoryAllocator) :
  layout_ok this -> books_ok this -> (length (blocks this) < fuel)%nat ->
  exists this',
    defragment fuel this = Some this' /\ defragment fuel this' = Some this'.
Proof.
  intros Hlayout Hbooks Hfuel.
  pose proof (defragment_total fuel this Hfuel) as Hfirst.
  eexists. split; [exact Hfirst|].
  pose proof (layout_ok_defragment _ _ _ Hlayout Hfirst) as [Hc' _ _].
  pose proof (books_ok_defragment _ _ _ Hbooks Hfirst) as [_ Hpos' _ _ _].
  destruct Hlayout as [Hc _ _]. destruct Hbooks as [_ Hpos _ _ _].
  rewrite defragment_total.
  2:{ simpl. pose proof (coalesce_length
        (relayout 0 (sort compare_blocks (blocks this)))) as Hlen.
      rewrite relayout_length, sort_length in Hlen. lia. }
  simpl in *. unfold set_blocks. simpl. do 2 f_equal.
  rewrite defragment_shape by done.
  rewrite (defragment_shape (blocks this)) by done.
  set (A := relayout 0 (allocated_blocks (blocks this))).
  set (T := merged_tail (total (allocated_blocks (blocks this)))
              (free_blocks (blocks this))).
  assert (Forall (fun c => Block.allocated c = true) A) as HA.
  { apply relayout_Forall; [done|].
    apply (filter_flag (fun c => Block.allocated c = true)). }
  assert (Forall (fun c => Block.allocated c = false) T) as HT.
  { apply merged_tail_free, (filter_flag (fun c => Block.allocated c = false)). }
  destruct (flags_apart A T HA HT) as [-> ->].
  subst A T. rewrite relayout_relayout, relayout_total.
  by rewrite merged_tail_merged_tail.
Qed.

Lemma defragment_idempotent_witness :
  layout_ok two_holes /\ books_ok two_holes /\
  (length (blocks two_holes) < 4)%nat /\
  exists this',
    defragment 4 two_holes = Some this' /\ defragment 4 this' = Some this'.
Proof.
  pose proof (reachable_layout_ok _ two_holes_reachable) as Hlayout.
  pose proof (reachable_books_ok _ two_holes_reachable) as Hbooks.
  split; [exact Hlayout|]. split; [exact Hbooks|]. split; [simpl; lia|].
  apply (defragment_idempotent 4 two_holes Hlayout Hbooks). simpl. lia.
Defined.

(** ** What [allocate] leaves alone *)

Lemma allocated_blocks_app l1 l2 :
  allocated_blocks (l1 ++ l2) = allocated_blocks l1 ++ allocated_blocks l2.
Proof. apply filter_app. Qed.

Lemma free_blocks_app l1 l2 :
  free_blocks (l1 ++ l2) = free_blocks l1 ++ free_blocks l2.
Proof. apply filter_app. Qed.

Lemma placed_allocated_blocks size n pre b post :
  Block.allocated b = false -> size <= Block.size b ->
  allocated_blocks (pre ++ b :: post)
    = allocated_blocks pre ++ allocated_blocks post /\
  allocated_blocks (placed size n pre b post)
    = allocated_blocks pre
      ++ {| Block.start := Block.start b; Block.size := size;
            Block.allocated := true; Block.id := Some n |}
      :: allocated_blocks post.
Proof.
  intros Hfree Hle. unfold placed. split.
  - rewrite allocated_blocks_app. unfold allocated_blocks at 2.
    by rewrite filter_cons_False by congruence.
  - destruct (Z.eqb_spec (Block.size b) size) as [<-|Hne];
      rewrite allocated_blocks_app; unfold allocated_blocks at 2.
    + by rewrite filter_cons_True by done.
    + rewrite filter_cons_True by done.
      by rewrite filter_cons_False by (simpl; congruence).
Qed.

(** X10. A successful [allocate] never moves or resizes the blocks that
    are already allocated: the new block is inserted among them, the allocated
    bytes grow by exactly the requested size and the free bytes shrink by
    it. *)
Theorem allocate_accounting (fuel : nat) (size now : Z)
    (this this' : MemoryAllocator) (n : Z) :
  allocate fuel size now this = Some (this', Normal (AllocationId n)) ->
  (exists before after start,
     allocated_blocks (blocks this) = before ++ after /\
     allocated_blocks (blocks this') =
       before ++ {| Block.start := start; Block.size := size;
                    Block.allocated := true; Block.id := Some n |} :: after) /\
  Stats.allocated (getStats this') = Stats.allocated (getStats this) + size /\
  Stats.free (getStats this') = Stats.free (getStats this) - size /\
  Stats.totalSize (getStats this') = Stats.totalSize (getStats this).
Proof.
  intros H.
  apply allocate_outcome in H
    as [(_ & [|]) | (pre & b & post & Hbs & Hfit & Hr & ->)]; [done..|].
  simplify_eq. apply fits_spec in Hfit as [Hfree Hle].
  destruct (placed_allocated_blocks size (nextId this) pre b post Hfree Hle)
    as [Hold Hnew].
  assert (total (allocated_blocks (placed size (nextId this) pre b post))
          = total (allocated_blocks (blocks this)) + size) as Hgrow.
  { rewrite Hnew, Hbs, Hold, !total_app. simpl. lia. }
  split; [|split; [|split]].
  - eexists _, _, _. rewrite Hbs. simpl. split; [exact Hold | exact Hnew].
  - by rewrite !stats_allocated.
  - rewrite !stats_free. simpl.
    pose proof (total_split (placed size (nextId this) pre b post)) as Hsplit.
    pose proof (total_split (blocks this)) as Hsplit'.
    rewrite placed_total, <- Hbs in Hsplit. lia.
  - done.
Qed.

Lemma allocate_accounting_witness :
  exists this',
    allocate 3 30 0 two_holes = Some (this', Normal (AllocationId 3)) /\
    (exists before after start,
       allocated_blocks (blocks two_holes) = before ++ after /\
       allocated_blocks (blocks this') =
         before ++ {| Block.start := start; Block.size := 30;
                      Block.allocated := true; Block.id := Some 3 |} :: after) /\
    Stats.allocated (getStats this') = Stats.allocated (getStats two_holes) + 30 /\
    Stats.free (getStats this') = Stats.free (getStats two_holes) - 30 /\
    Stats.totalSize (getStats this') = Stats.totalSize (getStats two_holes).
Proof.
  eexists. split; [reflexivity|].
  apply (allocate_accounting 3 30 0 two_holes _ 3). reflexivity.
Defined.

(** ** The allocation history *)

Lemma live_app l1 l2 : live (l1 ++ l2) = live l1 ++ live l2.
Proof. apply omap_app. Qed.

Lemma live_cons_None b l : Block.id b = None -> live (b :: l) = live l.
Proof. intros H. unfold live. simpl. by rewrite H. Qed.

Lemma live_cons_Some b l n :
  Block.id b = Some n -> live (b :: l) = (n, Block.size b) :: live l.
Proof. intros H. unfold live. simpl. by rewrite H. Qed.

Lemma tagged_grow x c : tagged c -> tagged (grow x c).
Proof. done. Qed.

Lemma absorb_live c l : Forall tagged (c :: l) -> live (absorb c l) = live (c :: l).
Proof.
  revert c. induction l as [|n l IH]; intros c Ht; [done|].
  apply Forall_cons in Ht as [Hc Ht]. pose proof Ht as Ht'.
  apply Forall_cons in Ht' as [Hn Hl]. cbn [absorb].
  destruct (negb (Block.allocated c) && negb (Block.allocated n)) eqn:Hfree.
  - apply andb_true_iff in Hfree as [Hfc Hfn].
    apply negb_true_iff in Hfc, Hfn.
    rewrite IH by (constructor; [by apply tagged_grow | done]).
    rewrite (live_cons_None (grow _ c)) by by apply free_block_untagged.
    rewrite (live_cons_None c) by by apply free_block_untagged.
    by rewrite (live_cons_None n) by by apply free_block_untagged.
  - specialize (IH n Ht). destruct (Block.id c) as [m|] eqn:Hid.
    + rewrite !(live_cons_Some c _ m Hid). by rewrite IH.
    + rewrite !(live_cons_None c _ Hid). by rewrite IH.
Qed.

Lemma coalesce_live bs : Forall tagged bs -> live (coalesce bs) = live bs.
Proof. destruct bs as [|b bs]; [done|]. apply absorb_live. Qed.

Lemma relayout_live p l : live (relayout p l) = live l.
Proof.
  unfold live. revert p.
  induction l as [|b l IH]; intros p; simpl; [done | by rewrite IH].
Qed.

Lemma placed_live size n pre b post :
  Block.id b = None ->
  live (pre ++ b :: post) = live pre ++ live post /\
  live (placed size n pre b post) = live pre ++ (n, size) :: live post.
Proof.
  intros Hid. split.
  - by rewrite live_app, live_cons_None.
  - unfold placed. destruct (Z.eqb_spec (Block.size b) size) as [<-|Hne];
      rewrite live_app.
    + by rewrite (live_cons_Some _ _ n).
    + rewrite (live_cons_Some _ _ n) by done.
      by rewrite live_cons_None.
Qed.

Lemma active_app l1 l2 : active (l1 ++ l2) = active l1 ++ active l2.
Proof. unfold active. by rewrite filter_app, fmap_app. Qed.

Lemma active_cons a l :
  active (a :: l) =
    if Allocation.freed a then active l
    else (Allocation.id a, Allocation.size a) :: active l.
Proof.
  unfold active. destruct (Allocation.freed a) eqn:Hf.
  - by rewrite filter_cons_False by congruence.
  - by rewrite filter_cons_True by done.
Qed.

Lemma seqZ_snoc n : 1 <= n -> seqZ 1 n = seqZ 1 (n - 1) ++ [n].
Proof.
  intros Hn. replace n with ((n - 1) + 1) at 1 by lia.
  rewrite seqZ_app by lia. f_equal.
  replace (1 + (n - 1)) with n by lia. by rewrite seqZ_cons, seqZ_nil by lia.
Qed.

Lemma history_ok_constructor n : history_ok (constructor n).
Proof. split; simpl; done. Qed.

Lemma history_ok_reset newSize this : history_ok (reset newSize this).
Proof. split; simpl; done. Qed.

Lemma history_ok_allocate fuel size now this this' r :
  books_ok this -> history_ok this ->
  allocate fuel size now this = Some (this', r) -> history_ok this'.
Proof.
  intros [_ _ Ht _ _] [Hnext Hids Hlive] H.
  apply allocate_outcome in H as [[-> _] | (pre & b & post & Hbs & Hfit & _ & ->)];
    [done|].
  apply fits_spec in Hfit as [Hfree _].
  rewrite Hbs in *.
  apply Forall_app in Ht as [_ Ht]. apply Forall_cons in Ht as [Htb _].
  destruct (placed_live size (nextId this) pre b post
              (free_block_untagged b Htb Hfree)) as [Hold Hnew].
  split; simpl.
  - lia.
  - rewrite fmap_app, Hids. simpl.
    replace (nextId this + 1 - 1) with (nextId this) by lia.
    by rewrite (seqZ_snoc (nextId this)).
  - rewrite Hnew, active_app, active_cons. simpl.
    rewrite <- Permutation_middle, <- Permutation_cons_append.
    constructor. by rewrite <- Hold.
Qed.

Lemma history_ok_defragment fuel this this' :
  books_ok this -> history_ok this ->
  defragment fuel this = Some this' -> history_ok this'.
Proof.
  intros [_ _ Ht _ _] [Hnext Hids Hlive] H.
  apply defragment_blocks in H as ->. split; simpl; [done..|].
  rewrite coalesce_live, relayout_live.
  - rewrite <- Hlive. unfold live. by rewrite sort_Permutation.
  - apply relayout_Forall; [done|]. by rewrite sort_Permutation.
Qed.

(** The first record with a given id is the only one. *)
Lemma record_by_id (al : list Allocation.t) n k a a' :
  NoDup (Allocation.id <$> al) ->
  al !! k = Some a -> Allocation.id a = n ->
  a' ∈ al -> Allocation.id a' = n -> a' = a.
Proof.
  intros Hnd Hk Ha Hin Ha'.
  apply list_elem_of_lookup in Hin as [k' Hk'].
  assert (k = k') as <-; [|congruence].
  eapply NoDup_lookup; [exact Hnd | |].
  - by rewrite list_lookup_fmap, Hk.
  - rewrite list_lookup_fmap, Hk'. simpl. congruence.
Qed.

Lemma history_ok_free fuel allocationId this this' r :
  books_ok this -> history_ok this ->
  free fuel allocationId this = Some (this', r) -> history_ok this'.
Proof.
  intros [_ _ Ht _ _] [Hnext Hids Hlive] H.
  apply free_outcome in H
    as [(_ & -> & _)
       | (_ & pre & b & post & Hbs & Hb & _ & Hbs' & _ & Hn & _ & _ & Hal)];
    [done|].
  rewrite Hbs in *.
  assert (Forall tagged (pre ++ mark_free b :: post)) as Ht'.
  { apply Forall_app in Ht as [Ht1 Ht2]. apply Forall_cons in Ht2 as [_ Ht2].
    apply Forall_app. split; [done|]. constructor; [|done].
    split; simpl; [done | by intros []]. }
  assert (live (blocks this') = live pre ++ live post) as Hlive'.
  { rewrite Hbs', coalesce_live by done.
    by rewrite live_app, live_cons_None. }
  destruct allocationId as [n|].
  - apply strict_eq_Some in Hb.
    rewrite live_app, (live_cons_Some _ _ n) in Hlive by done.
    assert ((n, Block.size b) ∈ active (allocations this)) as Hin.
    { rewrite <- Hlive. apply elem_of_app. right. by left. }
    apply list_elem_of_fmap in Hin as (a & Ha & Hin).
    apply list_elem_of_filter in Hin as [Hfreed Hin].
    injection Ha as Hna Hsz. subst n.
    destruct (findIndex _ (allocations this)) as [k|] eqn:Hfind.
    2:{ apply findIndex_NotFound in Hfind. rewrite Forall_forall in Hfind.
        specialize (Hfind a Hin). simpl in Hfind.
        by rewrite Z.eqb_refl in Hfind. }
    apply findIndex_Found in Hfind as (a' & Hk & Ha' & _).
    apply strict_eq_Some in Ha'. simplify_eq.
    assert (a = a') as <-.
    { eapply record_by_id; [|exact Hk|done..].
      rewrite Hids. apply NoDup_seqZ. }
    destruct (lookup_split _ _ _ Hk) as (pa & qa & Hsplit & Hlen).
    rewrite Hsplit in *. rewrite <- Hlen, alter_middle in Hal.
    split; rewrite ?Hn, ?Hal.
    + done.
    + rewrite <- Hids, !fmap_app. done.
    + rewrite Hlive', active_app, active_cons. simpl.
      rewrite active_app, active_cons, Hfreed, Hsz in Hlive.
      by apply Permutation_app_inv in Hlive.
  - rewrite (proj2 (findIndex_NotFound _ _)) in Hal by (apply Forall_forall; done).
    split; rewrite ?Hn, ?Hal; [done..|].
    rewrite Hlive', <- Hlive.
    destruct (Block.id b) eqn:Hid; [done|].
    by rewrite live_app, live_cons_None.
Qed.

Lemma history_ok_call fuel c this this' :
  books_ok this -> history_ok this ->
  call fuel c this = Some this' -> history_ok this'.
Proof.
  intros Hbooks Hok. destruct c as [size now|allocationId| |newSize|st|]; simpl.
  - destruct (allocate fuel size now this) as [[this'' r]|] eqn:H; [|done].
    intros [= <-]. by eapply history_ok_allocate.
  - destruct (free fuel allocationId this) as [[this'' r]|] eqn:H; [|done].
    intros [= <-]. by eapply history_ok_free.
  - by apply history_ok_defragment.
  - intros [= <-]. apply history_ok_reset.
  - intros [= <-]. by destruct Hok.
  - by intros [= <-].
Qed.

Lemma reachable_history_ok this : reachable this -> history_ok this.
Proof.
  induction 1 as [n Hn | fuel c this this' Hreach IH Hvalid Hcall].
  - apply history_ok_constructor.
  - eapply history_ok_call; [|done..]. by apply reachable_books_ok.
Qed.

(** X11. In a reachable state the allocation records carry the ids
    [1, 2, ..., nextId - 1] in this order.  So the id returned by [allocate] is
    the number of records plus one; it is on no block and in no record, and it
    is the id of the record that is appended. *)
Theorem allocation_ids_fresh (fuel : nat) (size now : Z)
    (this this' : MemoryAllocator) (n : Z) :
  reachable this ->
  allocate fuel size now this = Some (this', Normal (AllocationId n)) ->
  Allocation.id <$> allocations this = seqZ 1 (Z.of_nat (length (allocations this))) /\
  n = Z.of_nat (length (allocations this)) + 1 /\
  (n ∉ owners (blocks this)) /\
  (n ∉ (Allocation.id <$> allocations this)) /\
  allocations this' =
    allocations this ++
      [ {| Allocation.id := n; Allocation.size := size;
           Allocation.freed := false; Allocation.timestamp := now |} ] /\
  nextId this' = n + 1.
Proof.
  intros Hreach H.
  destruct (reachable_history_ok _ Hreach) as [Hnext Hids _].
  destruct (reachable_books_ok _ Hreach) as [_ _ _ _ Hfresh].
  apply allocate_outcome in H
    as [(_ & [|]) | (pre & b & post & Hbs & Hfit & Hr & ->)]; [done..|].
  simplify_eq.
  assert (Z.of_nat (length (allocations this)) = nextId this - 1) as Hlen.
  { rewrite <- (length_fmap Allocation.id), Hids, length_seqZ. lia. }
  rewrite Hlen. split; [done|]. split; [lia|]. split; [|split; [|done]].
  - intros Hin. rewrite Forall_forall in Hfresh. specialize (Hfresh _ Hin). lia.
  - rewrite Hids, elem_of_seqZ. lia.
Qed.

Lemma allocation_ids_fresh_witness :
  reachable two_holes /\
  exists this',
    allocate 3 30 7 two_holes = Some (this', Normal (AllocationId 3)) /\
    Allocation.id <$> allocations two_holes
      = seqZ 1 (Z.of_nat (length (allocations two_holes))) /\
    3 = Z.of_nat (length (allocations two_holes)) + 1 /\
    (3 ∉ owners (blocks two_holes)) /\
    (3 ∉ (Allocation.id <$> allocations two_holes)) /\
    allocations this' =
      allocations two_holes ++
        [ {| Allocation.id := 3; Allocation.size := 30;
             Allocation.freed := false; Allocation.timestamp := 7 |} ] /\
    nextId this' = 3 + 1.
Proof.
  split; [exact two_holes_reachable|].
  eexists. split; [reflexivity|].
  apply (allocation_ids_fresh 3 30 7 two_holes _ 3 two_holes_reachable).
  reflexivity.
Defined.

Lemma sumZ_Permutation xs ys : xs ≡ₚ ys -> sumZ xs = sumZ ys.
Proof. unfold sumZ. induction 1; simpl; lia. Qed.

Lemma live_allocated bs :
  Forall tagged bs ->
  length (live bs) = length (allocated_blocks bs) /\
  sumZ (snd <$> live bs) = total (allocated_blocks bs) /\
  fst <$> live bs = owners bs.
Proof.
  unfold allocated_blocks.
  induction 1 as [|b bs Hb _ (IH1 & IH2 & IH3)]; [done|].
  destruct (Block.id b) as [n|] eqn:Hid.
  - assert (Block.allocated b = true) as Hflag by (apply Hb; by rewrite Hid).
    rewrite (live_cons_Some _ _ n), filter_cons_True by done.
    assert (owners (b :: bs) = n :: owners bs) as ->
      by (unfold owners; simpl; by rewrite Hid).
    rewrite !fmap_cons. split; [simpl; by rewrite IH1|].
    split; [|simpl; by rewrite IH3].
    change (sumZ (snd (n, Block.size b) :: (snd <$> live bs)))
      with (Block.size b + sumZ (snd <$> live bs)).
    by rewrite IH2.
  - assert (Block.allocated b = false) as Hflag.
    { destruct (Block.allocated b) eqn:Hflag; [|done].
      destruct Hb as [Hb _]. destruct (Hb Hflag). congruence. }
    rewrite live_cons_None, filter_cons_False by congruence.
    assert (owners (b :: bs) = owners bs) as ->
      by (unfold owners; simpl; by rewrite Hid).
    done.
Qed.

(** X12. In a reachable state the records that are not freed and the
    allocated blocks are in one-to-one correspondence, with the same ids and
    sizes (a request is never rounded up).  So the count of active
    allocations shown by [getStats] is the number of allocated blocks, and the
    allocated bytes are the sum of the sizes of the active records. *)
Theorem history_matches_blocks (this : MemoryAllocator) :
  reachable this ->
  live (blocks this) ≡ₚ active (allocations this) /\
  Stats.allocations (getStats this) = length (allocated_blocks (blocks this)) /\
  Stats.allocated (getStats this)
    = sumZ (Allocation.size
              <$> filter (fun a => Allocation.freed a = false) (allocations this)).
Proof.
  intros Hreach.
  destruct (reachable_history_ok _ Hreach) as [_ _ Hlive].
  destruct (reachable_books_ok _ Hreach) as [_ _ Htagged _ _].
  destruct (live_allocated _ Htagged) as (Hlen & Hsum & _).
  split; [done|]. split.
  - rewrite <- Hlen, Hlive. unfold active. by rewrite length_fmap.
  - rewrite stats_allocated, <- Hsum, (sumZ_Permutation _ _ (fmap_Permutation snd _ _ Hlive)).
    unfold active. by rewrite <- list_fmap_compose.
Qed.

Lemma history_matches_blocks_witness :
  reachable two_holes /\
  live (blocks two_holes) ≡ₚ active (allocations two_holes) /\
  Stats.allocations (getStats two_holes)
    = length (allocated_blocks (blocks two_holes)) /\
  Stats.allocated (getStats two_holes)
    = sumZ (Allocation.size
              <$> filter (fun a => Allocation.freed a = false)
                    (allocations two_holes)).
Proof.
  split; [exact two_holes_reachable|].
  apply (history_matches_blocks two_holes two_holes_reachable).
Defined.

Lemma reachable_free fuel allocationId this this' r :
  reachable this -> free fuel allocationId this = Some (this', r) ->
  reachable this'.
Proof.
  intros Hreach H. apply (reachable_call fuel (CallFree allocationId) this);
    [done..|]. simpl. by rewrite H.
Qed.

Lemma active_count this :
  books_ok this -> history_ok this ->
  Stats.allocations (getStats this) = length (allocated_blocks (blocks this)).
Proof.
  intros [_ _ Htagged _ _] [_ _ Hlive].
  destruct (live_allocated _ Htagged) as (Hlen & _ & _).
  rewrite <- Hlen, Hlive. unfold active. by rewrite length_fmap.
Qed.

(** The block of a record that is not freed: [free] finds it, and removes it
    from the allocated blocks. *)
Lemma free_live_record fuel this a :
  reachable this -> (length (blocks this) < fuel)%nat ->
  a ∈ allocations this -> Allocation.freed a = false ->
  exists this' before b after,
    free fuel (Some (Allocation.id a)) this = Some (this', true) /\
    allocated_blocks (blocks this) = before ++ b :: after /\
    allocated_blocks (blocks this') = before ++ after /\
    Block.id b = Some (Allocation.id a) /\
    Block.size b = Allocation.size a /\
    total (blocks this') = total (blocks this).
Proof.
  intros Hreach Hfuel Hin Hfreed.
  destruct (reachable_history_ok _ Hreach) as [_ _ Hlive].
  destruct (reachable_books_ok _ Hreach) as [_ _ Htagged Hdistinct _].
  assert ((Allocation.id a, Allocation.size a) ∈ live (blocks this)) as Hlive_a.
  { rewrite Hlive. unfold active. apply list_elem_of_fmap. exists a.
    split; [done|]. by apply list_elem_of_filter. }
  destruct (free_total fuel (Some (Allocation.id a)) this Hfuel)
    as [[this' r] Hfree].
  pose proof Hfree as Hout. apply free_outcome in Hout
    as [(_ & _ & Hnone)
       | (-> & pre & b & post & Hbs & Hb & _ & Hbs' & _)].
  { assert (Allocation.id a ∈ owners (blocks this)) as Hown.
    { destruct (live_allocated _ Htagged) as (_ & _ & <-).
      apply list_elem_of_fmap. by exists (Allocation.id a, Allocation.size a). }
    apply owners_elem in Hown as (b & Hb & Hid).
    rewrite Forall_forall in Hnone. specialize (Hnone b Hb).
    apply strict_eq_Some in Hid. congruence. }
  apply strict_eq_Some in Hb.
  assert (Block.allocated b = true) as Hflag.
  { rewrite Forall_forall in Htagged. apply (Htagged b).
    - rewrite Hbs. apply elem_of_app. right. by left.
    - by rewrite Hb. }
  assert (Block.size b = Allocation.size a) as Hsize.
  { rewrite Hbs in Hlive_a, Hdistinct.
    rewrite live_app, (live_cons_Some _ _ _ Hb) in Hlive_a.
    rewrite owners_app in Hdistinct. unfold owners at 2 in Hdistinct.
    simpl in Hdistinct. rewrite Hb in Hdistinct.
    apply NoDup_app in Hdistinct as (_ & Hpre & Hpost).
    apply NoDup_cons in Hpost as [Hpost _].
    assert (forall l, (Allocation.id a, Allocation.size a) ∈ live l ->
              Allocation.id a ∈ owners l) as Hfst.
    { intros l Hl. unfold live in Hl. apply list_elem_of_omap in Hl as (c & Hc & Hl).
      apply owners_elem. exists c. split; [done|].
      destruct (Block.id c); simpl in Hl; by simplify_eq. }
    apply elem_of_app in Hlive_a as [Hl|Hl].
    - destruct (Hpre _ (Hfst _ Hl)). by left.
    - apply elem_of_cons in Hl as [Hl|Hl]; [by simplify_eq|].
      destruct (Hpost (Hfst _ Hl)). }
  exists this', (allocated_blocks pre), b, (allocated_blocks post).
  split; [done|]. split; [|split; [|split; [done|split; [done|]]]].
  - rewrite Hbs, allocated_blocks_app. unfold allocated_blocks at 2.
    by rewrite filter_cons_True by done.
  - rewrite Hbs', coalesce_allocated_blocks, allocated_blocks_app.
    unfold allocated_blocks at 2. by rewrite filter_cons_False by done.
  - rewrite Hbs', coalesce_total, Hbs, !total_app. done.
Qed.

(** X13. In a reachable state, [free] of the id of a record that is not
    freed always returns [true] (this is what the "Free" buttons and the
    "Free Random" button of the page rely on).  It removes exactly the block of
    that allocation from the allocated blocks and leaves the others as they
    are; the count of active allocations drops by one, the allocated bytes
    drop by the size of the record and the free bytes grow by it. *)
Theorem free_active_allocation (fuel : nat) (this : MemoryAllocator)
    (a : Allocation.t) :
  reachable this -> (length (blocks this) < fuel)%nat ->
  a ∈ allocations this -> Allocation.freed a = false ->
  exists this',
    free fuel (Some (Allocation.id a)) this = Some (this', true) /\
    (exists before b after,
       allocated_blocks (blocks this) = before ++ b :: after /\
       allocated_blocks (blocks this') = before ++ after /\
       Block.id b = Some (Allocation.id a) /\
       Block.size b = Allocation.size a) /\
    S (Stats.allocations (getStats this')) = Stats.allocations (getStats this) /\
    Stats.allocated (getStats this')
      = Stats.allocated (getStats this) - Allocation.size a /\
    Stats.free (getStats this') = Stats.free (getStats this) + Allocation.size a.
Proof.
  intros Hreach Hfuel Hin Hfreed.
  destruct (free_live_record fuel this a Hreach Hfuel Hin Hfreed)
    as (this' & before & b & after & Hfree & Hold & Hnew & Hid & Hsize & Htotal).
  pose proof (reachable_free _ _ _ _ _ Hreach Hfree) as Hreach'.
  exists this'. split; [done|]. split; [|split; [|split]].
  - by exists before, b, after.
  - rewrite (active_count this), (active_count this')
      by auto using reachable_books_ok, reachable_history_ok.
    rewrite Hold, Hnew, !length_app. simpl. lia.
  - rewrite !stats_allocated, Hold, Hnew, !total_app. simpl. lia.
  - rewrite !stats_free.
    pose proof (total_split (blocks this)) as Hs.
    pose proof (total_split (blocks this')) as Hs'.
    rewrite Hold in Hs. rewrite Hnew in Hs'. rewrite !total_app in Hs, Hs'.
    simpl in Hs. lia.
Qed.

Lemma free_active_allocation_witness :
  reachable two_holes /\ (length (blocks two_holes) < 4)%nat /\
  exists this',
    free 4 (Some 2) two_holes = Some (this', true) /\
    (exists before b after,
       allocated_blocks (blocks two_holes) = before ++ b :: after /\
       allocated_blocks (blocks this') = before ++ after /\
       Block.id b = Some 2 /\ Block.size b = 20) /\
    S (Stats.allocations (getStats this')) = Stats.allocations (getStats two_holes) /\
    Stats.allocated (getStats this') = Stats.allocated (getStats two_holes) - 20 /\
    Stats.free (getStats this') = Stats.free (getStats two_holes) + 20.
Proof.
  split; [exact two_holes_reachable|]. split; [simpl; lia|].
  apply (free_active_allocation 4 two_holes
           {| Allocation.id := 2; Allocation.size := 20;
              Allocation.freed := false; Allocation.timestamp := 0 |}
           two_holes_reachable).
  - simpl. lia.
  - simpl. right. by left.
  - done.
Defined.

(** * The page controller *)

(** ** The "Free Random" button *)

(** X14. In a reachable state the "Free Random" button does what its
    notification says: with no active allocation it reports an error and
    changes nothing; otherwise, for the record [a] it picks, the [free] it
    calls returns [true], the notification names that record, one active
    allocation less is left and the free bytes have grown by the record's
    size. *)
Theorem free_random_frees (fuel pick : nat) (this : MemoryAllocator) :
  reachable this -> (length (blocks this) < fuel)%nat ->
  (filter (fun a => Allocation.freed a = false) (allocations this) = [] ->
   free_random_click fuel pick this = Some (this, Normal NoAllocationsToFree)) /\
  (forall a,
     filter (fun a => Allocation.freed a = false) (allocations this) !! pick
       = Some a ->
     exists this',
       free_random_click fuel pick this =
         Some (this', Normal (FreedAllocation (Allocation.id a) (Allocation.size a))) /\
       free fuel (Some (Allocation.id a)) this = Some (this', true) /\
       S (Stats.allocations (getStats this')) = Stats.allocations (getStats this) /\
       Stats.free (getStats this') = Stats.free (getStats this) + Allocation.size a).
Proof.
  intros Hreach Hfuel. unfold free_random_click. split.
  - by intros ->.
  - intros a Ha. rewrite Ha.
    assert (a ∈ filter (fun a => Allocation.freed a = false) (allocations this))
      as Hin by by eapply list_elem_of_lookup_2.
    apply list_elem_of_filter in Hin as [Hfreed Hin].
    destruct (free_live_record fuel this a Hreach Hfuel Hin Hfreed)
      as (this' & before & b & after & Hfree & Hold & Hnew & _ & Hsize & Htotal).
    pose proof (reachable_free _ _ _ _ _ Hreach Hfree) as Hreach'.
    assert ((length (filter (fun a => Allocation.freed a = false)
                       (allocations this)) =? 0)%nat = false) as ->.
    { apply Nat.eqb_neq. apply lookup_lt_Some in Ha. lia. }
    exists this'. rewrite Hfree. split; [done|]. split; [done|]. split.
    + rewrite (active_count this), (active_count this')
        by auto using reachable_books_ok, reachable_history_ok.
      rewrite Hold, Hnew, !length_app. simpl. lia.
    + rewrite !stats_free.
      pose proof (total_split (blocks this)) as Hs.
      pose proof (total_split (blocks this')) as Hs'.
      rewrite Hold in Hs. rewrite Hnew in Hs'. rewrite !total_app in Hs, Hs'.
      simpl in Hs. lia.
Qed.

Lemma free_random_frees_witness :
  reachable two_holes /\ (length (blocks two_holes) < 4)%nat /\
  exists a,
    filter (fun a => Allocation.freed a = false) (allocations two_holes) !! 0%nat
      = Some a /\
    exists this',
      free_random_click 4 0 two_holes =
        Some (this', Normal (FreedAllocation (Allocation.id a) (Allocation.size a))) /\
      free 4 (Some (Allocation.id a)) two_holes = Some (this', true) /\
      S (Stats.allocations (getStats this')) = Stats.allocations (getStats two_holes) /\
      Stats.free (getStats this') = Stats.free (getStats two_holes) + Allocation.size a.
Proof.
  split; [exact two_holes_reachable|]. split; [simpl; lia|].
  eexists. split; [reflexivity|].
  assert (length (blocks two_holes) < 4)%nat as Hfuel by (simpl; lia).
  destruct (free_random_frees 4 0 two_holes two_holes_reachable Hfuel) as [_ H].
  apply H. reflexivity.
Defined.

(** ** The memory grid *)

Lemma row_boundary (k l : nat) :
  (0 < l <= blocksPerRow)%nat ->
  ((blocksPerRow * k + l) mod blocksPerRow =? 0)%nat
    = (l =? blocksPerRow)%nat.
Proof.
  unfold blocksPerRow. intros Hl.
  replace (32 * k + l)%nat with (l + k * 32)%nat by lia.
  rewrite Nat.Div0.mod_add.
  destruct (decide (l = 32%nat)) as [->|Hne].
  - by rewrite Nat.Div0.mod_same.
  - rewrite Nat.mod_small by lia.
    rewrite (proj2 (Nat.eqb_neq l 0%nat)), (proj2 (Nat.eqb_neq l 32%nat)) by lia.
    done.
Qed.

Lemma draw_cells_spec count cell : forall rows idx,
  rows_ok rows idx ->
  rows_ok (draw_cells count cell rows idx).1 (draw_cells count cell rows idx).2 /\
  concat (draw_cells count cell rows idx).1 = concat rows ++ replicate count cell.
Proof.
  induction count as [|count IH]; intros rows idx Hok.
  - simpl. by rewrite app_nil_r.
  - cbn [draw_cells replicate].
    set (rows1 := if (idx mod blocksPerRow =? 0)%nat then rows ++ [[]] else rows).
    set (rows2 := alter (fun row => row ++ [cell]) (length rows1 - 1)%nat rows1).
    assert (rows_ok rows2 (S idx) /\ concat rows2 = concat rows ++ [cell])
      as [Hok2 Hcat2].
    { subst rows2 rows1.
      destruct Hok as [[-> ->] | (full & last & -> & Hfull & Hlast & ->)].
      - simpl. split; [|done]. right. exists [], [cell].
        split; [done|]. split; [by constructor|].
        unfold blocksPerRow. simpl. lia.
      - rewrite row_boundary by done.
        destruct (Nat.eqb_spec (length last) blocksPerRow) as [Heq|Hne].
        + replace (length ((full ++ [last]) ++ [[]]) - 1)%nat
            with (length (full ++ [last]))
            by (rewrite !length_app; simpl; lia).
          rewrite alter_middle. split.
          * right. exists (full ++ [last]), [cell].
            split; [done|]. split; [apply Forall_app; split; [done|by constructor]|].
            split; [unfold blocksPerRow; simpl; lia|].
            rewrite length_app. unfold blocksPerRow in *. simpl length. lia.
          * by rewrite !concat_app.
        + replace (length (full ++ [last]) - 1)%nat with (length full)
            by (rewrite length_app; simpl; lia).
          rewrite alter_middle. split.
          * right. exists full, (last ++ [cell]).
            split; [done|]. split; [done|]. rewrite length_app.
            unfold blocksPerRow in *. simpl length. split; lia.
          * rewrite !concat_app. simpl. by rewrite !app_nil_r, <- app_assoc. }
    destruct (IH rows2 (S idx) Hok2) as [Hok' Hcat'].
    split; [done|]. rewrite Hcat', Hcat2, <- app_assoc. done.
Qed.

Lemma renderMemoryGrid_loop_spec allocSize bs : forall rows idx,
  rows_ok rows idx ->
  (exists idx', rows_ok (renderMemoryGrid_loop allocSize bs rows idx) idx') /\
  concat (renderMemoryGrid_loop allocSize bs rows idx)
    = concat rows ++ grid_cells allocSize bs.
Proof.
  induction bs as [|b bs IH]; intros rows idx Hok.
  - simpl. split; [by exists idx|]. by rewrite app_nil_r.
  - cbn [renderMemoryGrid_loop].
    pose proof (draw_cells_spec
                  (Z.to_nat (Math_ceil_div (Block.size b) blockSize))
                  (cell_of allocSize b) rows idx Hok) as [Hok' Hcat'].
    destruct (draw_cells _ _ rows idx) as [rows' idx']. simpl in Hok', Hcat'.
    destruct (IH rows' idx' Hok') as [Hok'' Hcat''].
    split; [done|]. rewrite Hcat'', Hcat'. unfold grid_cells. simpl.
    by rewrite <- app_assoc.
Qed.

Lemma renderMemoryGrid_cells allocSize this :
  concat (renderMemoryGrid allocSize this) = grid_cells allocSize (blocks this).
Proof.
  unfold renderMemoryGrid.
  by destruct (renderMemoryGrid_loop_spec allocSize (blocks this) [] 0%nat)
    as [_ ->]; [by left|].
Qed.

(** X15. The grid drawn by [renderMemoryGrid] holds, in block order,
    [ceil(size / 16)] cells for every block; every row holds between 1 and 32
    cells, and every row but the last exactly 32. *)
Theorem grid_rows (allocSize : Z) (this : MemoryAllocator) :
  concat (renderMemoryGrid allocSize this) = grid_cells allocSize (blocks this) /\
  Forall (fun row => (0 < length row <= 32)%nat) (renderMemoryGrid allocSize this) /\
  (forall i row, renderMemoryGrid allocSize this !! i = Some row ->
     (S i < length (renderMemoryGrid allocSize this))%nat -> length row = 32%nat).
Proof.
  unfold renderMemoryGrid.
  destruct (renderMemoryGrid_loop_spec allocSize (blocks this) [] 0%nat)
    as [[idx' Hok] Hcat]; [by left|].
  split; [done|].
  destruct Hok as [[-> _] | (full & last & -> & Hfull & Hlast & _)].
  - split; [by constructor|]. by intros i row.
  - unfold blocksPerRow in *. split.
    + apply Forall_app. split; [|constructor; [done|constructor]].
      eapply Forall_impl; [exact Hfull|]. simpl. intros; lia.
    + intros i row Hi Hlt. rewrite length_app in Hlt. simpl in Hlt.
      rewrite lookup_app_l in Hi by lia.
      rewrite Forall_forall in Hfull. apply Hfull.
      by eapply list_elem_of_lookup_2.
Qed.

Lemma ceil_div_16_add (a b : Z) :
  Math_ceil_div (a + b) 16 <= Math_ceil_div a 16 + Math_ceil_div b 16
    <= Math_ceil_div (a + b) 16 + 1.
Proof. unfold Math_ceil_div. Z.div_mod_to_equations. lia. Qed.

Lemma ceil_div_16_positive (a : Z) : 0 < a -> 1 <= Math_ceil_div a 16.
Proof. unfold Math_ceil_div. intros. Z.div_mod_to_equations. lia. Qed.

Lemma ceil_div_16_exact (a : Z) : a mod 16 = 0 -> Math_ceil_div a 16 = a / 16.
Proof. unfold Math_ceil_div. intros. Z.div_mod_to_equations. lia. Qed.

Lemma grid_cells_cons allocSize b bs :
  grid_cells allocSize (b :: bs) =
    replicate (Z.to_nat (Math_ceil_div (Block.size b) blockSize)) (cell_of allocSize b)
    ++ grid_cells allocSize bs.
Proof. done. Qed.

Lemma grid_cells_count allocSize b bs :
  Forall (fun c => 0 < Block.size c) (b :: bs) ->
  Math_ceil_div (total (b :: bs)) 16
    <= Z.of_nat (length (grid_cells allocSize (b :: bs)))
    <= Math_ceil_div (total (b :: bs)) 16 + Z.of_nat (length bs).
Proof.
  revert b. induction bs as [|c bs IH]; intros b Hpos;
    apply Forall_cons in Hpos as [Hb Hpos];
    rewrite grid_cells_cons, length_app, length_replicate;
    pose proof (ceil_div_16_positive _ Hb); unfold blockSize.
  - simpl. rewrite Z.add_0_r. lia.
  - specialize (IH c Hpos).
    pose proof (ceil_div_16_add (Block.size b) (total (c :: bs))).
    change (total (b :: c :: bs)) with (Block.size b + total (c :: bs)).
    change (length (c :: bs)) with (S (length bs)). lia.
Qed.

Lemma grid_cells_exact allocSize bs :
  Forall (fun c => 0 < Block.size c /\ Block.size c mod 16 = 0) bs ->
  Z.of_nat (length (grid_cells allocSize bs)) = total bs / 16 /\
  total bs mod 16 = 0.
Proof.
  induction 1 as [|b bs [Hb Hmod] _ [IH1 IH2]]; [done|].
  rewrite grid_cells_cons, length_app, length_replicate.
  unfold blockSize. rewrite (ceil_div_16_exact _ Hmod).
  change (total (b :: bs)) with (Block.size b + total bs).
  split; [|Z.div_mod_to_equations; lia].
  rewrite Nat2Z.inj_add, IH1, Z2Nat.id by (Z.div_mod_to_equations; lia).
  Z.div_mod_to_equations. lia.
Qed.

(** X16. On a well-formed state every block is drawn with at least one
    cell, and the number of cells lies between [totalBlocks] and
    [totalBlocks] plus the number of blocks minus one; it is [totalBlocks]
    when every block size is a multiple of 16. *)
Theorem grid_cell_count (allocSize : Z) (this : MemoryAllocator) :
  layout_ok this -> books_ok this ->
  (forall b, b ∈ blocks this ->
     cell_of allocSize b ∈ concat (renderMemoryGrid allocSize this)) /\
  totalBlocks this
    <= Z.of_nat (length (concat (renderMemoryGrid allocSize this)))
    <= totalBlocks this + Z.of_nat (length (blocks this)) - 1 /\
  (Forall (fun b => Block.size b mod 16 = 0) (blocks this) ->
   Z.of_nat (length (concat (renderMemoryGrid allocSize this))) = totalBlocks this).
Proof.
  intros [_ Htotal _] [Hcap Hpos _ _ _].
  rewrite renderMemoryGrid_cells.
  unfold totalBlocks, blockSize. rewrite <- Htotal. split; [|split].
  - intros b Hb. unfold grid_cells. apply list_elem_of_bind. exists b.
    split; [|done]. rewrite Forall_forall in Hpos.
    pose proof (ceil_div_16_positive _ (Hpos b Hb)) as Hone. unfold blockSize.
    destruct (Z.to_nat (Math_ceil_div (Block.size b) 16)) as [|k] eqn:Hk; [lia|].
    simpl. by left.
  - destruct (blocks this) as [|b bs] eqn:Hbs; [simpl in Htotal; lia|].
    pose proof (grid_cells_count allocSize b bs Hpos).
    change (length (b :: bs)) with (S (length bs)). lia.
  - intros Hmod.
    destruct (grid_cells_exact allocSize (blocks this)) as [-> Hm].
    + apply Forall_forall. intros b Hb. rewrite Forall_forall in Hpos, Hmod. auto.
    + by rewrite ceil_div_16_exact.
Qed.

Lemma grid_cell_count_witness :
  layout_ok two_holes /\ books_ok two_holes /\
  length (concat (renderMemoryGrid 16 two_holes)) = 8%nat /\
  totalBlocks two_holes = 7 /\
  (forall b, b ∈ blocks two_holes ->
     cell_of 16 b ∈ concat (renderMemoryGrid 16 two_holes)) /\
  totalBlocks two_holes
    <= Z.of_nat (length (concat (renderMemoryGrid 16 two_holes)))
    <= totalBlocks two_holes + Z.of_nat (length (blocks two_holes)) - 1 /\
  (Forall (fun b => Block.size b mod 16 = 0) (blocks two_holes) ->
   Z.of_nat (length (concat (renderMemoryGrid 16 two_holes)))
     = totalBlocks two_holes).
Proof.
  pose proof (reachable_layout_ok _ two_holes_reachable) as Hlayout.
  pose proof (reachable_books_ok _ two_holes_reachable) as Hbooks.
  split; [exact Hlayout|]. split; [exact Hbooks|].
  split; [reflexivity|]. split; [reflexivity|].
  apply (grid_cell_count 16 two_holes Hlayout Hbooks).
Defined.

(** * How the calls compose *)

Lemma reachable_nonempty this : reachable this -> blocks this <> [].
Proof.
  intros Hreach Hnil.
  destruct (reachable_layout_ok _ Hreach) as [_ Htotal _].
  destruct (reachable_books_ok _ Hreach) as [Hcap _ _ _ _].
  rewrite Hnil in Htotal. simpl in Htotal. lia.
Qed.

(** X17. [setStrategy] puts the cursor back inside the block list: in a
    reachable state, an [allocate] that follows a [setStrategy] never throws,
    whatever the strategy chosen and whatever happened before. *)
Theorem allocate_safe_after_setStrategy (fuel : nat) (size now : Z)
    (st : Strategy) (this : MemoryAllocator) :
  reachable this -> (length (blocks this) < fuel)%nat ->
  exists this' r,
    allocate fuel size now (setStrategy st this) = Some (this', Normal r).
Proof.
  intros Hreach Hfuel.
  pose proof (reachable_nonempty _ Hreach) as Hne.
  destruct (allocate_total fuel size now (setStrategy st this)) as [[this' r] H];
    [done|].
  destruct r as [r|]; [by exists this', r|].
  apply allocate_TypeError_inv in H as [_ Hout].
  simpl in Hout. destruct (blocks this); [done | simpl in Hout; lia].
Qed.

Lemma allocate_safe_after_setStrategy_witness :
  reachable stale_cursor /\ (length (blocks stale_cursor) < 2)%nat /\
  allocate 2 10 0 stale_cursor = Some (stale_cursor, TypeError) /\
  exists this' r,
    allocate 2 10 0 (setStrategy NextFit stale_cursor) = Some (this', Normal r).
Proof.
  split; [exact stale_cursor_reachable|]. split; [simpl; lia|].
  split; [reflexivity|].
  apply (allocate_safe_after_setStrategy 2 10 0 NextFit stale_cursor
           stale_cursor_reachable).
  simpl. lia.
Defined.

(** X18. With the cursor at 0 (as after [setStrategy] or [reset]) and a block
    list that is not empty, next-fit chooses exactly what first-fit
    chooses. *)
Theorem nextFit_from_zero_is_firstFit (fuel : nat) (size : Z)
    (this : MemoryAllocator) :
  lastSearchIndex this = 0%nat -> blocks this <> [] ->
  (length (blocks this) <= fuel)%nat ->
  nextFit fuel this size = Some (Normal (firstFit this size)).
Proof.
  intros Hzero Hne Hfuel.
  assert (lastSearchIndex this < length (blocks this))%nat as Hcursor.
  { rewrite Hzero. destruct (blocks this); [done | simpl; lia]. }
  rewrite nextFit_in_range by done. rewrite Hzero. do 2 f_equal.
  unfold firstFit. destruct (findIndex _ _) as [i|] eqn:Hff.
  - apply findIndex_Found in Hff as (b & Hb & Hfit & Hmin).
    assert (i < length (blocks this))%nat as Hi by by eapply lookup_lt_Some.
    apply first_fitting_Found. exists i, b.
    split; [by rewrite circular_order_lookup, Nat.mod_small by done|].
    split; [done|]. split; [done|].
    intros j i' b' Hj Hi' Hb'.
    rewrite circular_order_lookup, Nat.mod_small in Hi' by lia.
    simplify_eq. by apply (Hmin j).
  - apply findIndex_NotFound in Hff. by apply first_fitting_none.
Qed.

Lemma nextFit_from_zero_is_firstFit_witness :
  lastSearchIndex (setStrategy NextFit two_holes) = 0%nat /\
  blocks (setStrategy NextFit two_holes) <> [] /\
  nextFit 3 (setStrategy NextFit two_holes) 5 = Some (Normal (Found 0%nat)) /\
  nextFit 3 (setStrategy NextFit two_holes) 5
    = Some (Normal (firstFit (setStrategy NextFit two_holes) 5)).
Proof.
  split; [reflexivity|]. split; [discriminate|]. split; [reflexivity|].
  apply (nextFit_from_zero_is_firstFit 3 5 (setStrategy NextFit two_holes));
    [reflexivity | discriminate | simpl; lia].
Defined.

(** X19. [reset] starts the ids again: whatever was allocated before, the
    first [allocate] after a [reset] that fits into the new total size
    returns the id 1 and places its block at offset 0, as the only allocation
    record. *)
Theorem reset_then_allocate (fuel : nat) (size now : Z) (newSize : option Z)
    (this : MemoryAllocator) :
  (0 < fuel)%nat -> strategy this <> OtherStrategy ->
  0 <= size <= totalSize (reset newSize this) ->
  exists this',
    allocate fuel size now (reset newSize this)
      = Some (this', Normal (AllocationId 1)) /\
    blocks this' !! 0%nat =
      Some {| Block.start := 0; Block.size := size;
              Block.allocated := true; Block.id := Some 1 |} /\
    allocations this' =
      [ {| Allocation.id := 1; Allocation.size := size;
           Allocation.freed := false; Allocation.timestamp := now |} ].
Proof.
  intros Hfuel Hst [Hsize Hle].
  set (fresh := reset newSize this) in *.
  destruct (allocate_finds fuel size now fresh
              {| Block.start := 0; Block.size := totalSize fresh;
                 Block.allocated := false; Block.id := None |}
              Hsize Hst ltac:(simpl; lia) ltac:(simpl; lia))
    as [this' H]; [by left | by apply fits_spec |].
  exists this'. split; [exact H|].
  pose proof H as Hout. apply allocate_outcome in Hout
    as [(_ & [|]) | (pre & c & post & Hbs & _ & _ & ->)]; [done..|].
  simpl in *. destruct pre as [|? [|? ?]]; simplify_eq/=.
  split; [|done]. unfold placed. simpl.
  destruct (_ =? size) eqn:Heq; [|done].
  apply Z.eqb_eq in Heq. unfold mark_allocated. simpl. by rewrite Heq.
Qed.

Lemma reset_then_allocate_witness :
  (0 < 1)%nat /\ strategy two_holes <> OtherStrategy /\
  0 <= 40 <= totalSize (reset (Some 64) two_holes) /\
  exists this',
    allocate 1 40 9 (reset (Some 64) two_holes)
      = Some (this', Normal (AllocationId 1)) /\
    blocks this' !! 0%nat =
      Some {| Block.start := 0; Block.size := 40;
              Block.allocated := true; Block.id := Some 1 |} /\
    allocations this' =
      [ {| Allocation.id := 1; Allocation.size := 40;
           Allocation.freed := false; Allocation.timestamp := 9 |} ].
Proof.
  split; [lia|]. split; [discriminate|]. split; [simpl; lia|].
  apply (reset_then_allocate 1 40 9 (Some 64) two_holes);
    [lia | discriminate | simpl; lia].
Defined.

(** ** The fragmentation metric *)

Lemma percent_bounds (F L : Z) :
  0 < L <= F ->
  (0 <= inject_Z (F - L) / inject_Z F * inject_Z 100)%Q /\
  (inject_Z (F - L) / inject_Z F * inject_Z 100 < inject_Z 100)%Q /\
  ((inject_Z (F - L) / inject_Z F * inject_Z 100 == 0)%Q <-> L = F).
Proof.
  intros [HL HF]. destruct F as [|p|p]; [lia| |lia].
  unfold Qdiv, Qinv, Qmult, Qle, Qlt, Qeq, inject_Z. simpl.
  repeat split; try lia.
Qed.

Lemma largest_bounds (fs : list Block.t) :
  Forall (fun b => 0 < Block.size b) fs -> fs <> [] ->
  0 < foldr Z.max 0 (Block.size <$> fs) <= total fs /\
  (foldr Z.max 0 (Block.size <$> fs) = total fs <-> length fs = 1%nat).
Proof.
  induction 1 as [|f fs Hf Hfs IH]; [done|]. intros _.
  destruct fs as [|g fs].
  - simpl. split; [lia|]. split; [done | lia].
  - destruct IH as [[Hlow Hhigh] _]; [done|].
    change (foldr Z.max 0 (Block.size <$> f :: g :: fs))
      with (Z.max (Block.size f) (foldr Z.max 0 (Block.size <$> g :: fs))).
    change (total (f :: g :: fs)) with (Block.size f + total (g :: fs)).
    split; [lia|]. split; [lia | simpl; lia].
Qed.

Lemma fragmentation_value this :
  Forall (fun b => 0 < Block.size b) (blocks this) ->
  Stats.fragmentation (getStats this) =
    match free_blocks (blocks this) with
    | [] => 0%Q
    | f :: fs =>
        (inject_Z (total (f :: fs) - foldr Z.max 0%Z (Block.size <$> f :: fs))
         / inject_Z (total (f :: fs)) * inject_Z 100)%Q
    end.
Proof.
  intros Hpos. simpl. rewrite sum_sizes_total.
  fold (free_blocks (blocks this)).
  assert (Forall (fun b => 0 < Block.size b) (free_blocks (blocks this))) as Hfree
    by by apply Forall_filter_of.
  destruct (free_blocks (blocks this)) as [|f fs]; [done|].
  pose proof (total_positive _ _ Hfree) as Htotal.
  rewrite (proj2 (Z.gtb_gt _ _)) by lia.
  assert (0 <= Block.size f) as Hf by (apply Forall_cons in Hfree as [Hf _]; lia).
  pose proof (Math_max_foldr (Block.size f) (Block.size <$> fs) Hf) as Hmax.
  cbn [fmap list_fmap] in Hmax |- *. by rewrite Hmax.
Qed.

(** X20. With positive block sizes the fragmentation reported by [getStats]
    is at least 0 and below 100, and it is 0 exactly when there is at most
    one free block. *)
Theorem fragmentation_bounds (this : MemoryAllocator) :
  Forall (fun b => 0 < Block.size b) (blocks this) ->
  (0 <= Stats.fragmentation (getStats this))%Q /\
  (Stats.fragmentation (getStats this) < inject_Z 100)%Q /\
  ((Stats.fragmentation (getStats this) == 0)%Q <->
   (Stats.freeBlocks (getStats this) <= 1)%nat).
Proof.
  intros Hpos. rewrite (fragmentation_value this Hpos).
  change (Stats.freeBlocks (getStats this))
    with (length (free_blocks (blocks this))).
  assert (Forall (fun b => 0 < Block.size b) (free_blocks (blocks this))) as Hf
    by by apply Forall_filter_of.
  destruct (free_blocks (blocks this)) as [|f fs] eqn:Hfs.
  - simpl. repeat split; try done. intros _. lia.
  - destruct (largest_bounds (f :: fs) Hf) as [[Hlow Hhigh] Hone]; [done|].
    destruct (percent_bounds (total (f :: fs))
                (foldr Z.max 0 (Block.size <$> f :: fs))) as (H0 & H100 & Hzero);
      [lia|].
    split; [done|]. split; [done|]. rewrite Hzero, Hone. simpl. lia.
Qed.

Lemma fragmentation_bounds_witness :
  Forall (fun b => 0 < Block.size b) (blocks holes_10_20) /\
  (0 <= Stats.fragmentation (getStats holes_10_20))%Q /\
  (Stats.fragmentation (getStats holes_10_20) < inject_Z 100)%Q /\
  ((Stats.fragmentation (getStats holes_10_20) == 0)%Q <->
   (Stats.freeBlocks (getStats holes_10_20) <= 1)%nat).
Proof.
  assert (Forall (fun b => 0 < Block.size b) (blocks holes_10_20)) as Hpos
    by (repeat constructor).
  split; [exact Hpos|]. apply (fragmentation_bounds holes_10_20 Hpos).
Defined.
